(** * Verification of the tutorial code of learn-pytorch

    The notebooks of this repository define a handful of small Python
    functions and classes.  Each of them is embedded below as a Rocq
    definition that follows the Python text statement by statement, and
    the properties that the specification states about them are proved
    (or refuted at a concrete input) afterwards.

    Conventions of the embedding:
    - a Python [str] is a Rocq [string]; a character of the Rocq string
      stands for one code point below 256, so that [list(line)] is the
      list of its one-character strings and [<] on [str] is
      [String.compare] (code point by code point);
    - a Python [dict] whose iteration order matters (a [Counter] passed to
      [sorted]) is an association list in insertion order; a [dict] that is
      only looked up is a [gmap];
    - a statement that can raise makes the embedded function return an
      [option];
    - Python integers are [Z] or [nat]; tensor entries are exact numbers
      ([Z] for the integer-valued arrays of the convolution notebook, [R]
      for the attention scores). *)

From Stdlib Require Import ZArith QArith Reals Lra List Lia Bool Permutation.
From Stdlib Require Import Strings.String Strings.Ascii DecimalString.
From Stdlib Require Import Structures.OrderedTypeEx.
From stdpp Require Import base gmap strings list sorting.


(** ** Python's stable sort

    [sorted(xs, key=k)] and [xs.sort(key=k, reverse=True)] are stable: the
    result is ordered by the key and elements with equal keys keep the order
    they had in the input.  That fixes the result completely, so straight
    insertion, which has both properties, is a model of it.  [le x y] is
    the test "x may stand before y": [k x <= k y] for an ascending sort and
    [k x >= k y] for [reverse=True]. *)
Section StableSort.
Context {A : Type} (le : A → A → bool).

Fixpoint insert_sorted (x : A) (s : list A) : list A :=
  match s with
  | [] => [x]
  | y :: s' => if le x y then x :: y :: s' else y :: insert_sorted x s'
  end.

Fixpoint stable_sort (l : list A) : list A :=
  match l with
  | [] => []
  | x :: l' => insert_sorted x (stable_sort l')
  end.
End StableSort.

(** ** text-preprocessing notebook: [tokenize], [count_corpus], [Vocab] *)
Module Text.

(** [collections.Counter(tokens)]: one entry per distinct token, in the order
    of first occurrence, holding the number of occurrences. *)
Fixpoint counter_incr (c : list (string * nat)) (tk : string) : list (string * nat) :=
  match c with
  | [] => [(tk, 1)]
  | (k, n) :: c' =>
      if String.eqb k tk then (k, S n) :: c' else (k, n) :: counter_incr c' tk
  end.

Definition Counter (tokens : list string) : list (string * nat) :=
  fold_left counter_incr tokens [].

(** The number of times [t] occurs in [l]. *)
Definition occurrences (t : string) (l : list string) : nat :=
  length (filter (λ x, x = t) l).

(** [count_corpus(sentences)]:
    [tokens = [tk for line in sentences for tk in line]] and then
    [collections.Counter(tokens)]. *)
Definition count_corpus (sentences : list (list string)) : list (string * nat) :=
  let tokens := concat sentences in
  Counter tokens.

(** The object built by [Vocab.__init__].  [pad], [bos] and [eos] exist as
    attributes only when [use_special_tokens] is set. *)
Record Vocab := mkVocab {
  token_freqs : list (string * nat);
  pad : option nat;
  bos : option nat;
  eos : option nat;
  unk : nat;
  idx_to_token : list string;
  token_to_idx : gmap string nat
}.

(** The initial value of [uniq_tokens] in each branch of
    [if use_special_tokens]. *)
Definition special_tokens (use_special_tokens : bool) : list string :=
  if use_special_tokens then ["<pad>"; "<bos>"; "<eos>"; "<unk>"] else ["<unk>"].

(** [a < b] on Python strings. *)
Definition str_lt (a b : string) : Prop := (a ?= b)%string = Lt.

(** The order in which the two sorts leave the pairs: larger count first,
    and the smaller token first among equal counts. *)
Definition vocab_order (x y : string * nat) : Prop :=
  y.2 < x.2 ∨ (x.2 = y.2 ∧ str_lt x.1 y.1).

(** [key=lambda x: x[0]] *)
Definition by_token (x y : string * nat) : bool := String.leb x.1 y.1.
(** [key=lambda x: x[1], reverse=True] *)
Definition by_freq_desc (x y : string * nat) : bool := Nat.leb y.2 x.2.

(** The condition of the comprehension
    [[token for token, freq in self.token_freqs
      if freq >= min_freq and token not in uniq_tokens]]; the comprehension
    is evaluated before [+=] extends [uniq_tokens], so [uniq_tokens] is
    still the list of special tokens in it. *)
Definition kept (min_freq : Z) (uniq_tokens : list string) (x : string * nat) : Prop :=
  (min_freq ≤ Z.of_nat x.2)%Z ∧ x.1 ∉ uniq_tokens.

Global Instance kept_dec min_freq uniq_tokens x : Decision (kept min_freq uniq_tokens x).
Proof. unfold kept. apply _. Defined.

(** Body of [for token in uniq_tokens]:
    [self.idx_to_token.append(token)] and
    [self.token_to_idx[token] = len(self.idx_to_token) - 1]. *)
Definition index_step (st : list string * gmap string nat) (token : string)
  : list string * gmap string nat :=
  let idx_to_token := st.1 ++ [token] in
  (idx_to_token, <[token := length idx_to_token - 1]> st.2).

Definition Vocab_init (tokens : list (list string)) (min_freq : Z)
    (use_special_tokens : bool) : Vocab :=
  let counter := count_corpus tokens in
  let token_freqs := stable_sort by_token counter in
  let token_freqs := stable_sort by_freq_desc token_freqs in
  let uniq_tokens := special_tokens use_special_tokens in
  let uniq_tokens :=
    uniq_tokens ++ (filter (kept min_freq uniq_tokens) token_freqs).*1 in
  let '(idx_to_token, token_to_idx) := fold_left index_step uniq_tokens ([], ∅) in
  {| token_freqs := token_freqs;
     pad := if use_special_tokens then Some 0 else None;
     bos := if use_special_tokens then Some 1 else None;
     eos := if use_special_tokens then Some 2 else None;
     unk := if use_special_tokens then 3 else 0;
     idx_to_token := idx_to_token;
     token_to_idx := token_to_idx |}.

(** The final value of the local variable [uniq_tokens] of [__init__]. *)
Definition uniq_tokens (tokens : list (list string)) (min_freq : Z) (u : bool) : list string :=
  special_tokens u ++
  (filter (kept min_freq (special_tokens u)) (token_freqs (Vocab_init tokens min_freq u))).*1.

(** [Vocab.__len__] *)
Definition Vocab_len (v : Vocab) : nat := length (idx_to_token v).

(** An argument of [__getitem__] or [to_tokens]: a single value, or a list
    (or tuple) of arguments. *)
#[warnings="-register-all"]
Inductive pyarg (A : Type) : Type :=
  | One (a : A)
  | Many (l : list (pyarg A)).
Arguments One {A} a.
Arguments Many {A} l.

(** [Vocab.__getitem__]: [self.token_to_idx.get(tokens, self.unk)] on a
    single token, element by element on a list. *)
Fixpoint Vocab_getitem (v : Vocab) (tokens : pyarg string) : pyarg nat :=
  match tokens with
  | One token => One (default (unk v) (token_to_idx v !! token))
  | Many l => Many (List.map (Vocab_getitem v) l)
  end.

(** [l[i]] for a Python list: a negative index counts from the end, an index
    out of range raises [IndexError]. *)
Definition py_index {A} (l : list A) (i : Z) : option A :=
  if (0 <=? i)%Z then l !! Z.to_nat i
  else if (- Z.of_nat (length l) <=? i)%Z then l !! Z.to_nat (Z.of_nat (length l) + i)
  else None.

(** [Vocab.to_tokens]: [self.idx_to_token[indices]] on a single index,
    [[self.idx_to_token[index] for index in indices]] on a list. *)
Definition Vocab_to_tokens (v : Vocab) (indices : Z + list Z) : option (string + list string) :=
  match indices with
  | inl index => inl <$> py_index (idx_to_token v) index
  | inr l => inr <$> mapM (py_index (idx_to_token v)) l
  end.

(** [tokenize(lines, token)].  The result pairs what is written to standard
    output with the returned value; the last branch falls off the end of the
    function, which returns [None] in Python. *)
Fixpoint split_on (sep : ascii) (s : string) : list string :=
  match s with
  | EmptyString => [EmptyString]
  | String c s' =>
      if Ascii.eqb c sep then EmptyString :: split_on sep s'
      else match split_on sep s' with
           | [] => [String c EmptyString]
           | w :: ws => String c w :: ws
           end
  end.

(** No character of [w] is [sep]. *)
Definition free_of (sep : ascii) (w : string) : Prop :=
  Forall (λ c, c ≠ sep) (list_ascii_of_string w).

Fixpoint chars (s : string) : list string :=
  match s with
  | EmptyString => []
  | String c s' => String c EmptyString :: chars s'
  end.

Definition newline : string := String (ascii_of_nat 10) EmptyString.

(** [print(x)] writes [x] and a line feed. *)
Definition print (x : string) : string := x +:+ newline.

Definition tokenize (lines : list string) (token : string)
  : string * option (list (list string)) :=
  if String.eqb token "word" then
    ("", Some (List.map (split_on " "%char) lines))
  else if String.eqb token "char" then
    ("", Some (List.map chars lines))
  else
    (print ("ERROR: unkown token type " +:+ token), None).

End Text.


(** ** ctr notebook: [CTRDataset] *)
Module CTR.

(** An insertion-ordered [dict] that the code iterates over: [d[k] = v]
    overwrites in place or appends, [d[k]] finds the entry. *)
Section OrderedDict.
Context {K V : Type} `{EqDecision K}.

Fixpoint od_get (d : list (K * V)) (k : K) : option V :=
  match d with
  | [] => None
  | (k', v) :: d' => if decide (k' = k) then Some v else od_get d' k
  end.

Fixpoint od_set (d : list (K * V)) (k : K) (v : V) : list (K * V) :=
  match d with
  | [] => [(k, v)]
  | (k', v') :: d' =>
      if decide (k' = k) then (k', v) :: d' else (k', v') :: od_set d' k v
  end.
End OrderedDict.

(** One entry of [self.data]: [instance['y']] and, once [setdefault] has
    created it, [instance['x']]. *)
Record instance := mkInstance {
  inst_y : list Q;
  inst_x : option (list string)
}.

Record CTRDataset := mkCTRDataset {
  NUM_FEATS : nat;
  count : nat;
  data : gmap nat instance;
  feat_mapper : option (list (nat * gmap string Z));
  defaults : option (gmap nat Z);
  field_dims : list Z;
  offsets : list Z
}.

Definition tab : ascii := ascii_of_nat 9.
Definition line_feed : ascii := ascii_of_nat 10.

(** [s.rstrip('\n')] *)
Fixpoint rstrip (c : ascii) (s : string) : string :=
  match s with
  | EmptyString => EmptyString
  | String a s' =>
      match rstrip c s' with
      | EmptyString => if Ascii.eqb a c then EmptyString else String a EmptyString
      | r => String a r
      end
  end.

(** [a[i] = v] on a one-dimensional array of length [n]: index [-1..-n]
    counts from the end, anything else out of [0..n-1] raises. *)
Definition np_setitem (a : list Z) (i : Z) (v : Z) : option (list Z) :=
  let n := Z.of_nat (length a) in
  if ((0 <=? i) && (i <? n))%Z then Some (<[Z.to_nat i := v]> a)
  else if ((- n <=? i) && (i <? 0))%Z then Some (<[Z.to_nat (n + i) := v]> a)
  else None.

(** [np.cumsum(a)] *)
Fixpoint cumsum_from (acc : Z) (a : list Z) : list Z :=
  match a with
  | [] => []
  | x :: a' => (acc + x)%Z :: cumsum_from (acc + x)%Z a'
  end.
Definition cumsum (a : list Z) : list Z := cumsum_from 0 a.

(** [a + b] on one-dimensional arrays, with broadcasting of a length-one
    operand; other length mismatches raise. *)
Definition np_add (a b : list Z) : option (list Z) :=
  if decide (length a = length b) then Some (zip_with Z.add a b)
  else match a, b with
       | [x], _ => Some ((λ y, (x + y)%Z) <$> b)
       | _, [y] => Some ((λ x, (x + y)%Z) <$> a)
       | _, _ => None
       end.

Section Dataset.
(** The built-ins the class calls on data of the file: [int(s)],
    [np.float32(s)] (both raise on a string they cannot read, which is
    [None] here), and the order in which a [set] of strings built from the
    given elements is iterated. *)
Variable int_of_str : string → option Z.
Variable float32_of_str : string → option Q.
Variable set_order : list string → list string.

(** State of the loop [for line in f]. *)
Record loader := mkLoader {
  ld_count : nat;
  ld_data : gmap nat instance;
  ld_feat_cnts : list (nat * list (string * nat))
}.

(** Body of [for i in range(1, self.NUM_FEATS + 1)]:
    [feat_cnts[i][values[i]] += 1] and
    [instance.setdefault('x', []).append(values[i])]. *)
Definition feat_step (values : list string)
    (st : option (list (nat * list (string * nat)) * option (list string))) (i : nat)
  : option (list (nat * list (string * nat)) * option (list string)) :=
  '(feat_cnts, x) ← st;
  v ← values !! i;
  let cnt := default [] (od_get feat_cnts i) in
  Some (od_set feat_cnts i (Text.counter_incr cnt v), Some (default [] x ++ [v])).

(** Body of [for line in f]. *)
Definition read_line (num_feats : nat) (st : option loader) (line : string)
  : option loader :=
  ld ← st;
  let values := Text.split_on tab (rstrip line_feed line) in
  if decide (length values ≠ num_feats + 1) then Some ld
  else
    v0 ← values !! 0;
    k ← int_of_str v0;
    _ ← np_setitem [0; 0]%Z k 1;
    y ← float32_of_str v0;
    '(feat_cnts, x) ← fold_left (feat_step values) (seq 1 num_feats)
                                (Some (ld_feat_cnts ld, None));
    Some {| ld_count := ld_count ld + 1;
            ld_data := <[ld_count ld := mkInstance [y] x]> (ld_data ld);
            ld_feat_cnts := feat_cnts |}.

(** A line that the loop does not skip: its split has
    [self.NUM_FEATS + 1] values. *)
Definition well_formed (num_feats : nat) (line : string) : Prop :=
  length (Text.split_on tab (rstrip line_feed line)) = num_feats + 1.

Global Instance well_formed_dec n line : Decision (well_formed n line).
Proof. unfold well_formed. apply _. Defined.

(** The entry that the loop body stores for such a line. *)
Definition record_of (num_feats : nat) (line : string) : option instance :=
  let values := Text.split_on tab (rstrip line_feed line) in
  v0 ← values !! 0;
  k ← int_of_str v0;
  _ ← np_setitem [0; 0]%Z k 1;
  y ← float32_of_str v0;
  Some (mkInstance [y] (if decide (num_feats = 0) then None else Some (drop 1 values))).

(** [{feat: idx for idx, feat in enumerate(cnt)}] *)
Definition enumerate_map (cnt : list string) : gmap string Z :=
  list_to_map (reverse (imap (λ idx feat, (feat, Z.of_nat idx)) cnt)).

(** Body of [for i, fm in self.feat_mapper.items()]:
    [self.field_dims[i - 1] = len(fm) + 1]. *)
Definition dims_step (dims : option (list Z)) (entry : nat * gmap string Z)
  : option (list Z) :=
  d ← dims;
  np_setitem d (Z.of_nat entry.1 - 1) (Z.of_nat (size entry.2) + 1).

(** [CTRDataset.__init__], reading the lines that iterating over the open
    file yields. *)
Definition CTRDataset_init (lines : list string)
    (feat_mapper : option (list (nat * gmap string Z)))
    (defaults : option (gmap nat Z))
    (min_threshold : Z) (num_feat : nat) : option CTRDataset :=
  ld ← fold_left (read_line num_feat) lines
                 (Some {| ld_count := 0; ld_data := ∅; ld_feat_cnts := [] |});
  let '(feat_mapper, defaults) :=
    match feat_mapper, defaults with
    | None, None =>
        let sets :=
          (λ '(i, cnt), (i, set_order
             (filter (λ p, (min_threshold ≤ Z.of_nat p.2)%Z) cnt).*1))
          <$> ld_feat_cnts ld in
        (Some ((λ '(i, cnt), (i, enumerate_map cnt)) <$> sets),
         Some (list_to_map ((λ '(i, cnt), (i, Z.of_nat (length cnt))) <$> sets)))
    | fm, df => (fm, df)
    end in
  fm ← feat_mapper;
  dims ← fold_left dims_step fm (Some (replicate num_feat 0%Z));
  Some {| NUM_FEATS := num_feat;
          count := ld_count ld;
          data := ld_data ld;
          feat_mapper := feat_mapper;
          defaults := defaults;
          field_dims := dims;
          offsets := 0%Z :: removelast (cumsum dims) |}.

(** [CTRDataset.__len__] *)
Definition CTRDataset_len (d : CTRDataset) : nat := count d.

(** [CTRDataset.__getitem__]: the pair of [feat + self.offsets] and
    [self.data[idx]['y']]. *)
Definition CTRDataset_getitem (d : CTRDataset) (idx : Z) : option (list Z * list Q) :=
  inst ← (if (idx <? 0)%Z then None else data d !! Z.to_nat idx);
  xs ← inst_x inst;
  fm ← feat_mapper d;
  feat ← mapM (λ '(i, v),
                 m ← od_get fm (i + 1);
                 df ← defaults d;
                 dflt ← df !! (i + 1);
                 Some (default dflt (m !! v)))
              (imap (λ i v, (i, v)) xs);
  sum ← np_add feat (offsets d);
  Some (sum, inst_y inst).
End Dataset.

(** ** The click-through rate of the glossary, for comparison

    "the ratio of clicks to impressions": every record of the file is one
    impression of an advertisement, and a record whose label is 1 is a
    click. *)
Definition impressions (d : CTRDataset) : nat := count d.
Definition is_click (d : CTRDataset) (k : nat) : bool :=
  match inst_y <$> data d !! k with
  | Some [y] => Qeq_bool y 1
  | _ => false
  end.
Definition clicks (d : CTRDataset) : nat :=
  length (List.filter (is_click d) (seq 0 (count d))).
Definition click_through_rate (d : CTRDataset) : Q :=
  (Z.of_nat (clicks d) # Pos.of_nat (impressions d))%Q.

(** A reader for the labels of the data file: [int] and [np.float32] agree
    with it on the strings ["0"] and ["1"]. *)
Definition read_bit (s : string) : option Z :=
  if String.eqb s "0" then Some 0%Z
  else if String.eqb s "1" then Some 1%Z
  else None.

(** An iteration order for the sets of features: the order of insertion. *)
Definition insertion_order (l : list string) : list string := l.

Definition read_label (s : string) : option Q := inject_Z <$> read_bit s.

(** A line of the data file: the fields separated by tabs, then a line
    feed. *)
Definition tsv_line (fields : list string) : string :=
  String.concat (String tab EmptyString) fields +:+ String line_feed EmptyString.

Definition sample_file : list string :=
  [tsv_line ["1"; "a"; "b"]; tsv_line ["no tabs here"]; tsv_line ["0"; "c"; "d"]].

End CTR.

(** ** 01.PyTorch-tutorials/requirements.txt *)
Module Manifest.

(** The lines of the file. *)
Definition requirements_txt : list string :=
  [ "# Refer to ./jenkins/build.sh for tutorial build instructions";
    "";
    "sphinx";
    "sphinx-gallery==0.3.1";
    "tqdm";
    "numpy";
    "matplotlib";
    "torch";
    "torchvision";
    "torchtext";
    "torchaudio";
    "PyHamcrest";
    "bs4";
    "awscli==1.16.35";
    "flask";
    "spacy";
    "";
    "# PyTorch Theme";
    "-e git+git://github.com/pytorch/pytorch_sphinx_theme.git#egg=pytorch_sphinx_theme";
    "";
    "ipython";
    "";
    "# to run examples";
    "pandas";
    "scikit-image";
    "# pillow >= 4.2 will throw error when trying to write mode RGBA as JPEG,";
    "# this is a workaround to the issue.";
    "pillow==6.2.0";
    "wget" ].

(** A requirement entry: a line that is neither empty nor a comment. *)
Definition is_entry (line : string) : bool :=
  negb (String.eqb line "") && negb (String.prefix "#" line).

Definition entries (file : list string) : list string := List.filter is_entry file.

(** [name==version]: the package and the exact version an entry pins, if it
    has the [==] specifier. *)
Fixpoint pinned (line : string) : option (string * string) :=
  match line with
  | EmptyString => None
  | String c rest =>
      if String.prefix "==" line
      then Some (EmptyString, String.substring 2 (String.length line - 2) line)
      else prod_map (String c) (λ v, v) <$> pinned rest
  end.

(** An entry that carries no version specifier at all: none of the
    characters of [==], [>=], [<=], [~=], [!=] occurs in it. *)
Definition unversioned (line : string) : bool :=
  forallb (λ c, negb (existsb (Ascii.eqb c) ["="; "<"; ">"; "~"; "!"]%char))
          (list_ascii_of_string (if String.prefix "-e " line then "" else line)).

End Manifest.

(** ** hybridize notebook: [fancy_func] and the program text of [evoke_] *)
Module Hybridize.

(** [def add(a, b): return a + b] *)
Definition add (a b : Z) : Z := (a + b)%Z.

(** [def fancy_func(a, b, c, d)] *)
Definition fancy_func (a b c d : Z) : Z :=
  let e := add a b in
  let f := add c d in
  let g := add e f in
  g.

Definition nl : string := String (ascii_of_nat 10) EmptyString.

(** The triple-quoted strings that [add_] and [fancy_func_] return: each
    starts and ends with a line feed. *)
Definition add_ : string :=
  nl +:+ "def add(a, b):" +:+ nl +:+
  "    return a + b" +:+ nl.

Definition fancy_func_ : string :=
  nl +:+ "def fancy_func(a, b, c, d):" +:+ nl +:+
  "    e = add(a, b)" +:+ nl +:+
  "    f = add(c, d)" +:+ nl +:+
  "    g = add(e, f)" +:+ nl +:+
  "    return g" +:+ nl.

(** [def evoke_(): return add_() + fancy_func_() + 'print(fancy_func(1, 2, 3, 4))'] *)
Definition evoke_ : string :=
  add_ +:+ fancy_func_ +:+ "print(fancy_func(1, 2, 3, 4))".

(** *** [compile(prog, '', 'exec')] and [exec] on the Python that these
    texts use: function definitions whose bodies are assignments and a
    [return], integer literals, names, [+], calls, and [print] of an
    expression as a statement. *)

Inductive tok :=
  | TName (s : string)
  | TInt (n : Z)
  | TSym (c : ascii).

#[warnings="-register-all"]
Inductive expr :=
  | EVar (x : string)
  | EInt (n : Z)
  | EAdd (e1 e2 : expr)
  | ECall (f : string) (args : list expr).

Inductive stmt :=
  | SAssign (x : string) (e : expr)
  | SReturn (e : expr)
  | SPrint (e : expr).

Inductive top :=
  | TDef (name : string) (params : list string) (body : list stmt)
  | TStmt (s : stmt).

Definition is_digit (c : ascii) : bool :=
  (48 <=? nat_of_ascii c) && (nat_of_ascii c <=? 57).
Definition is_letter (c : ascii) : bool :=
  let n := nat_of_ascii c in
  ((65 <=? n) && (n <=? 90)) || ((97 <=? n) && (n <=? 122)) || (n =? 95).
Definition is_symbol (c : ascii) : bool :=
  existsb (Ascii.eqb c) ["("; ")"; ","; ":"; "="; "+"]%char.

(** The word being read: a name, or the value of a number. *)
Inductive word :=
  | WNone
  | WName (s : string)
  | WInt (n : Z).

Definition flush (w : word) : list tok :=
  match w with
  | WNone => []
  | WName s => [TName s]
  | WInt n => [TInt n]
  end.

Fixpoint lex_go (w : word) (s : string) : option (list tok) :=
  match s with
  | EmptyString => Some (flush w)
  | String c s' =>
      if is_digit c then
        let d := Z.of_nat (nat_of_ascii c - 48) in
        match w with
        | WNone => lex_go (WInt d) s'
        | WName x => lex_go (WName (x +:+ String c EmptyString)) s'
        | WInt n => lex_go (WInt (10 * n + d)) s'
        end
      else if is_letter c then
        match w with
        | WNone => lex_go (WName (String c EmptyString)) s'
        | WName x => lex_go (WName (x +:+ String c EmptyString)) s'
        | WInt _ => None
        end
      else if Ascii.eqb c " " then (flush w ++.) <$> lex_go WNone s'
      else if is_symbol c then (λ ts, flush w ++ TSym c :: ts) <$> lex_go WNone s'
      else None
  end.
Definition lex (s : string) : option (list tok) := lex_go WNone s.

Definition sym (c : ascii) (t : tok) : bool :=
  match t with TSym c' => Ascii.eqb c c' | _ => false end.

(** Expressions, by recursive descent; [fuel] bounds the depth of the
    descent and is taken as the number of tokens. *)
Fixpoint parse_term (fuel : nat) (ts : list tok) : option (expr * list tok) :=
  match fuel with
  | 0 => None
  | S fuel =>
      match ts with
      | TName f :: t :: rest =>
          if sym "(" t then
            '(args, rest') ← parse_args fuel rest; Some (ECall f args, rest')
          else Some (EVar f, t :: rest)
      | TName x :: rest => Some (EVar x, rest)
      | TInt n :: rest => Some (EInt n, rest)
      | _ => None
      end
  end
with parse_sum (fuel : nat) (lhs : expr) (ts : list tok) : option (expr * list tok) :=
  match fuel with
  | 0 => None
  | S fuel =>
      match ts with
      | t :: rest =>
          if sym "+" t then
            '(rhs, rest') ← parse_term fuel rest;
            parse_sum fuel (EAdd lhs rhs) rest'
          else Some (lhs, ts)
      | [] => Some (lhs, ts)
      end
  end
with parse_expr (fuel : nat) (ts : list tok) : option (expr * list tok) :=
  match fuel with
  | 0 => None
  | S fuel => '(lhs, rest) ← parse_term fuel ts; parse_sum fuel lhs rest
  end
with parse_args (fuel : nat) (ts : list tok) : option (list expr * list tok) :=
  match fuel with
  | 0 => None
  | S fuel =>
      match ts with
      | t :: rest =>
          if sym ")" t then Some ([], rest)
          else
            '(e, rest') ← parse_expr fuel ts;
            match rest' with
            | t' :: rest'' =>
                if sym "," t' then
                  '(es, rest3) ← parse_args fuel rest''; Some (e :: es, rest3)
                else if sym ")" t' then Some ([e], rest'')
                else None
            | [] => None
            end
      | [] => None
      end
  end.

Definition parse_whole (ts : list tok) : option expr :=
  '(e, rest) ← parse_expr (2 * S (length ts)) ts;
  match rest with [] => Some e | _ => None end.

Definition parse_stmt (ts : list tok) : option stmt :=
  match ts with
  | TName k :: rest =>
      if String.eqb k "return" then SReturn <$> parse_whole rest
      else match rest with
           | t :: rest' =>
               if sym "=" t then SAssign k <$> parse_whole rest'
               else if String.eqb k "print" && sym "(" t then
                 match parse_whole ts with
                 | Some (ECall _ [e]) => Some (SPrint e)
                 | _ => None
                 end
               else None
           | [] => None
           end
  | _ => None
  end.

Definition closes_header (ts : list tok) : bool :=
  match ts with
  | [t; t'] => sym ")" t && sym ":" t'
  | _ => false
  end.

Fixpoint parse_params (ts : list tok) : option (list string) :=
  match ts with
  | TName x :: t :: rest =>
      if sym "," t then (x ::.) <$> parse_params rest
      else if closes_header (t :: rest) then Some [x]
      else None
  | _ => if closes_header ts then Some [] else None
  end.

Definition parse_def (ts : list tok) : option (string * list string) :=
  match ts with
  | TName k :: TName f :: t :: rest =>
      if String.eqb k "def" && sym "(" t then (f,.) <$> parse_params rest else None
  | _ => None
  end.

Definition is_blank (line : string) : bool :=
  forallb (Ascii.eqb " ") (list_ascii_of_string line).
Definition is_indented (line : string) : bool := String.prefix " " line.

(** The lines of a program, read in order: an indented line continues the
    definition that is open, any other line closes it. *)
Fixpoint parse_lines (open : option (string * list string * list stmt))
    (lines : list string) : option (list top) :=
  let close := match open with
               | Some (f, ps, body) => [TDef f ps body]
               | None => []
               end in
  match lines with
  | [] => Some close
  | line :: lines' =>
      if is_blank line then parse_lines open lines'
      else
        ts ← lex line;
        if is_indented line then
          '(f, ps, body) ← open;
          s ← parse_stmt ts;
          parse_lines (Some (f, ps, body ++ [s])) lines'
        else
          match parse_def ts with
          | Some (f, ps) => (close ++.) <$> parse_lines (Some (f, ps, [])) lines'
          | None =>
              s ← parse_stmt ts;
              (λ p, close ++ TStmt s :: p) <$> parse_lines None lines'
          end
  end.

Definition compile (prog : string) : option (list top) :=
  parse_lines None (Text.split_on (ascii_of_nat 10) prog).

(** Evaluation.  [callf] is what a call of a user function does. *)
Section Eval.
Variable callf : string → list Z → option Z.

Fixpoint eval (env : list (string * Z)) (e : expr) : option Z :=
  match e with
  | EVar x => CTR.od_get env x
  | EInt n => Some n
  | EAdd e1 e2 => a ← eval env e1; b ← eval env e2; Some (a + b)%Z
  | ECall f args =>
      vs ← (fix go (l : list expr) : option (list Z) :=
              match l with
              | [] => Some []
              | a :: l' => v ← eval env a; vs ← go l'; Some (v :: vs)
              end) args;
      callf f vs
  end.

(** The body of a function: the value of the first [return] reached. *)
Fixpoint run_body (env : list (string * Z)) (body : list stmt) : option Z :=
  match body with
  | [] => None
  | SAssign x e :: body' => v ← eval env e; run_body (CTR.od_set env x v) body'
  | SReturn e :: _ => eval env e
  | SPrint _ :: _ => None
  end.
End Eval.

Definition functions := list (string * (list string * list stmt)).

(** A call of a user function, to the depth that the interpreter's recursion
    limit allows. *)
Fixpoint call (depth : nat) (fs : functions) (f : string) (args : list Z) : option Z :=
  match depth with
  | 0 => None
  | S depth =>
      '(params, body) ← CTR.od_get fs f;
      if decide (length params = length args)
      then run_body (call depth fs) (zip params args) body
      else None
  end.

Definition recursion_limit : nat := 1000.

(** [str(n)] for an integer. *)
Definition str (n : Z) : string := NilZero.string_of_int (Z.to_int n).

(** [exec]: definitions bind their names, the other statements run in
    order; the result is what [print] wrote. *)
Fixpoint exec_tops (fs : functions) (globals : list (string * Z)) (out : string)
    (p : list top) : option string :=
  match p with
  | [] => Some out
  | TDef f ps body :: p' => exec_tops (CTR.od_set fs f (ps, body)) globals out p'
  | TStmt (SAssign x e) :: p' =>
      v ← eval (call recursion_limit fs) globals e;
      exec_tops fs (CTR.od_set globals x v) out p'
  | TStmt (SPrint e) :: p' =>
      v ← eval (call recursion_limit fs) globals e;
      exec_tops fs globals (out +:+ Text.print (str v)) p'
  | TStmt (SReturn _) :: _ => None
  end.

Definition exec (p : list top) : option string := exec_tops [] [] "" p.

(** The functions that a compiled program defines. *)
Definition defined (p : list top) : functions :=
  fold_left (λ fs t, match t with
                     | TDef f ps body => CTR.od_set fs f (ps, body)
                     | TStmt _ => fs
                     end) p [].

End Hybridize.

(** ** transposed-conv notebook: [trans_conv] and [kernel2matrix] *)
Module Conv.

(** A two-dimensional array: its shape and its entries in row-major order
    ([length data = shape0 * shape1]).  A one-dimensional array is the list
    of its entries. *)
Record ndarray := mkArray {
  shape0 : nat;
  shape1 : nat;
  data : list Z
}.

Definition well_shaped (X : ndarray) : Prop :=
  length (data X) = shape0 X * shape1 X.

(** [np.zeros(n)] and [np.zeros((r, c))] *)
Definition zeros1 (n : nat) : list Z := replicate n 0%Z.
Definition zeros (r c : nat) : ndarray := mkArray r c (replicate (r * c) 0%Z).

(** [X[i, j]] *)
Definition get (X : ndarray) (i j : nat) : option Z :=
  if decide (i < shape0 X ∧ j < shape1 X) then data X !! (i * shape1 X + j) else None.

(** [X[i, :]] *)
Definition row (X : ndarray) (i : nat) : option (list Z) :=
  if decide (i < shape0 X) then Some (take (shape1 X) (drop (i * shape1 X) (data X)))
  else None.

(** [Y[i: i + h, j: j + w] += x * K] for a block that lies inside [Y]. *)
Definition add_block (Y : ndarray) (i j : nat) (x : Z) (K : ndarray) : ndarray :=
  mkArray (shape0 Y) (shape1 Y)
    (imap (λ p v,
             let r := p / shape1 Y in
             let c := p mod shape1 Y in
             if decide (i ≤ r < i + shape0 K ∧ j ≤ c < j + shape1 K)
             then (v + x * default 0 (get K (r - i) (c - j)))%Z
             else v)
          (data Y)).

(** [trans_conv(X, K)]; [np.zeros] raises on a negative dimension. *)
Definition trans_conv (X K : ndarray) : option ndarray :=
  let h := shape0 K in
  let w := shape1 K in
  if decide (shape0 X + h = 0 ∨ shape1 X + w = 0) then None
  else
    let Y := zeros (shape0 X + h - 1) (shape1 X + w - 1) in
    fold_left (λ Y i,
      fold_left (λ Y j,
        x ← get X i j;
        (λ Y, add_block Y i j x K) <$> Y) (seq 0 (shape1 X)) Y)
      (seq 0 (shape0 X)) (Some Y).

(** [a[lo:hi] = v] on a one-dimensional array, for [lo <= hi <= len(a)]:
    [v] has the length of the slice or is broadcast from length one. *)
Definition assign_slice (a : list Z) (lo hi : nat) (v : list Z) : option (list Z) :=
  if decide (length v = hi - lo) then Some (take lo a ++ v ++ drop hi a)
  else match v with
       | [x] => Some (take lo a ++ replicate (hi - lo) x ++ drop hi a)
       | _ => None
       end.

(** [W[r, lo:hi] = v] *)
Definition assign_row_slice (W : ndarray) (r lo hi : nat) (v : list Z) : option ndarray :=
  if decide (r < shape0 W) then
    mkArray (shape0 W) (shape1 W) <$>
      assign_slice (data W) (r * shape1 W + lo) (r * shape1 W + hi) v
  else None.

(** [kernel2matrix(K)] *)
Definition kernel2matrix (K : ndarray) : option ndarray :=
  let k := zeros1 5 in
  let W := zeros 4 9 in
  K0 ← row K 0;
  K1 ← row K 1;
  k ← assign_slice k 0 2 K0;
  k ← assign_slice k 3 5 K1;
  W ← assign_row_slice W 0 0 5 k;
  W ← assign_row_slice W 1 1 6 k;
  W ← assign_row_slice W 2 3 8 k;
  W ← assign_row_slice W 3 4 9 k;
  Some W.




(** The inner product of two lists of equal length. *)
Definition inner (u v : list Z) : Z := foldr Z.add 0%Z (zip_with Z.mul u v).


(** Modelled from the spec: [d2l.corr2d] is imported from the [d2l] package
    and is not among the sources; the definition follows the equation that
    the notebook gives for it, [Y[i, j] = (X[i: i + h, j: j + w] * K).sum()],
    on an output of shape [(X.shape[0] - h + 1, X.shape[1] - w + 1)]. *)
Definition corr2d (X K : ndarray) : option ndarray :=
  let h := shape0 K in
  let w := shape1 K in
  if decide (shape0 X + 1 < h ∨ shape1 X + 1 < w) then None
  else
    let r := shape0 X + 1 - h in
    let c := shape1 X + 1 - w in
    Some (mkArray r c
      (i ← seq 0 r; j ← seq 0 c;
       [foldr Z.add 0%Z
          (a ← seq 0 h; b ← seq 0 w;
           [(default 0 (get X (i + a) (j + b)) * default 0 (get K a b))%Z])])).

End Conv.

(** ** attention notebook: [masked_softmax], [DotProductAttention],
    [MLPAttention]

    A tensor of three axes is the list of its matrices, a matrix the list of
    its rows.  The entries are real numbers: the arithmetic of the
    framework is taken exact. *)
Module Attention.

Abbreviation matrix := (list (list R)).
Abbreviation tensor := (list (list (list R))).

Definition Rsum (l : list R) : R := foldr Rplus 0%R l.
Definition inner (u v : list R) : R := Rsum (zip_with Rmult u v).

(** [X.shape] of a tensor with three axes *)
Definition shape (X : tensor) : nat * nat * nat :=
  (length X, length (hd [] X), length (hd [] (hd [] X))).

(** [npx.softmax] along the last axis: on one row, and on a tensor. *)
Definition softmax_row (x : list R) : list R :=
  let s := Rsum (exp <$> x) in
  (λ a, exp a / s)%R <$> x.
Definition softmax (X : tensor) : tensor := (λ m : matrix, softmax_row <$> m) <$> X.

(** [npx.sequence_mask(X, valid_length, True, axis=1, value=value)] on a
    matrix: in row [r] the entries from position [valid_length[r]] on are
    replaced by [value]. *)
Definition sequence_mask (X : matrix) (valid_length : list nat) (value : R)
  : option matrix :=
  if decide (length X = length valid_length)
  then Some (zip_with (λ x len, imap (λ j a, if decide (j < len) then a else value) x)
                      X valid_length)
  else None.

(** [n] consecutive groups of [q] rows: [reshape] from [(n * q, k)] to
    [(n, q, k)]. *)
Fixpoint chunks {A} (q n : nat) (rows : list A) : list (list A) :=
  match n with
  | 0 => []
  | S n' => take q rows :: chunks q n' (drop q rows)
  end.

(** The argument [valid_length]: an array of one axis or of two. *)
Inductive lengths :=
  | Lengths1 (l : list nat)
  | Lengths2 (l : list (list nat)).

(** [masked_softmax(X, valid_length)] *)
Definition masked_softmax (X : tensor) (valid_length : option lengths) : option tensor :=
  match valid_length with
  | None => Some (softmax X)
  | Some valid_length =>
      let '(s0, s1, s2) := shape X in
      let valid_length :=
        match valid_length with
        | Lengths1 l => l ≫= replicate s1
        | Lengths2 l => concat l
        end in
      X' ← sequence_mask (concat X) valid_length (-1000000)%R;
      Some (chunks s1 s0 (softmax_row <$> X'))
  end.
















(** A row of attention weights: no entry is negative and the entries sum
    to one. *)
Definition distribution (w : list R) : Prop :=
  Forall (λ a, 0 <= a)%R w ∧ Rsum w = 1%R.



End Attention.

(** ** text-preprocessing notebook: [read_time_machine] and
    [load_corpus_time_machine] *)
Module Corpus.

(** [c.isspace()] for a code point below 256. *)
Definition is_space (c : ascii) : bool :=
  let n := nat_of_ascii c in
  ((9 <=? n) && (n <=? 13)) || ((28 <=? n) && (n <=? 32)) || (n =? 133) || (n =? 160).

(** [[A-Za-z]] *)
Definition is_upper (c : ascii) : bool :=
  let n := nat_of_ascii c in (65 <=? n) && (n <=? 90).
Definition is_lower (c : ascii) : bool :=
  let n := nat_of_ascii c in (97 <=? n) && (n <=? 122).
Definition is_alpha (c : ascii) : bool := is_upper c || is_lower c.

(** [s.lstrip()], [s.rstrip()] and [s.strip()] *)
Fixpoint lstrip (s : string) : string :=
  match s with
  | EmptyString => EmptyString
  | String c s' => if is_space c then lstrip s' else s
  end.

Fixpoint rstrip (s : string) : string :=
  match s with
  | EmptyString => EmptyString
  | String c s' =>
      match rstrip s' with
      | EmptyString => if is_space c then EmptyString else String c EmptyString
      | r => String c r
      end
  end.

Definition strip (s : string) : string := rstrip (lstrip s).

(** [s.lower()] on code points below 256: the letters [A-Z] and the
    capital letters of Latin-1 move 32 places up. *)
Definition lower_char (c : ascii) : ascii :=
  let n := nat_of_ascii c in
  if ((65 <=? n) && (n <=? 90)) || ((192 <=? n) && (n <=? 222) && negb (n =? 215))
  then ascii_of_nat (n + 32)
  else c.

Fixpoint lower (s : string) : string :=
  match s with
  | EmptyString => EmptyString
  | String c s' => String (lower_char c) (lower s')
  end.

(** [re.sub('[^A-Za-z]+', ' ', s)]: [in_run] tells that the character before
    was part of the run being replaced. *)
Fixpoint sub_non_letters (in_run : bool) (s : string) : string :=
  match s with
  | EmptyString => EmptyString
  | String c s' =>
      if is_alpha c then String c (sub_non_letters false s')
      else if in_run then sub_non_letters true s'
      else String " " (sub_non_letters true s')
  end.

(** [read_time_machine()], on the lines that [f.readlines()] returns. *)
Definition read_time_machine (lines : list string) : list string :=
  (λ line, sub_non_letters false (lower (strip line))) <$> lines.

(** [vocab[tk]] for a single token [tk]. *)
Definition index_of (vocab : Text.Vocab) (tk : string) : nat :=
  match Text.Vocab_getitem vocab (Text.One tk) with
  | Text.One i => i
  | Text.Many _ => Text.unk vocab
  end.

(** [load_corpus_time_machine(max_tokens)], on the same lines. *)
Definition load_corpus_time_machine (file : list string) (max_tokens : Z)
  : option (list nat * Text.Vocab) :=
  let lines := read_time_machine file in
  tokens ← (Text.tokenize lines "char").2;
  let vocab := Text.Vocab_init tokens 0 false in
  let corpus := line ← tokens; tk ← line; [index_of vocab tk] in
  let corpus := if (0 <? max_tokens)%Z then take (Z.to_nat max_tokens) corpus
                else corpus in
  Some (corpus, vocab).

(** A line as [read_time_machine] leaves it: lower-case letters and single
    spaces. *)
Fixpoint single_spaced (s : string) : bool :=
  match s with
  | String a ((String b _) as s') =>
      negb (Ascii.eqb a " " && Ascii.eqb b " ") && single_spaced s'
  | _ => true
  end.

Definition starts_with_space (s : string) : bool :=
  match s with
  | String a _ => Ascii.eqb a " "
  | EmptyString => false
  end.

Definition lower_word (w : string) : Prop :=
  Forall (λ c, is_lower c = true) (list_ascii_of_string w).

Definition clean_line (s : string) : Prop :=
  Forall (λ c, is_lower c = true ∨ c = " "%char) (list_ascii_of_string s) ∧
  single_spaced s = true.

(** The tokens that a line of [read_time_machine] can contain in
    character mode. *)
Definition alphabet : list string :=
  [" "; "a"; "b"; "c"; "d"; "e"; "f"; "g"; "h"; "i"; "j"; "k"; "l"; "m";
   "n"; "o"; "p"; "q"; "r"; "s"; "t"; "u"; "v"; "w"; "x"; "y"; "z"].

(** The elements of a list other than the first and the last. *)
Definition interior {A} (l : list A) : list A := removelast (tail l).

End Corpus.

(** ** [CTRDataset]: what the constructor keeps true *)
Module CTRInvariants.
Import CTR.






(** A value that occurs fewer than [min_threshold] times in its column. *)
Definition rare (min_threshold : Z) (col : list string) (v : string) : Prop :=
  (Z.of_nat (Text.occurrences v col) < min_threshold)%Z.

Global Instance rare_dec min_threshold col v : Decision (rare min_threshold col v).
Proof. unfold rare. apply _. Defined.

End CTRInvariants.

(** ** [trans_conv]: the sum that each entry of the result is *)
Module ConvSpec.
Import Conv.




End ConvSpec.

(** ** attention notebook: masked rows and uniform weights *)
Module AttentionSpec.
Import Attention.

(** What [npx.sequence_mask(..., value=-1e6)] makes of one row whose valid
    length is [len]. *)
Definition mask_row (len : nat) (x : list R) : list R :=
  imap (λ j a, if decide (j < len) then a else (-1000000)%R) x.



End AttentionSpec.

(** ** Kaggle notebook: [mkdir_if_not_exist], [reorg_train_valid],
    [reorg_test]

    The directory [data_dir/input_dir] is a finite map: the directory
    [data_dir/input_dir/set/label] is the key [(set, label)], and its value
    the set of the names of the files in it.  [os.listdir] is the list of
    file names that it returns, [idx_label] a [dict], and [int] the
    built-in that reads an integer. *)
Module Reorg.

Abbreviation tree := (gmap (string * string) (gset string)).



Section Reorg.
Variable int_of_str : string → option Z.






End Reorg.





End Reorg.

(** * Properties *)

(** ** The stable sort *)
Section StableSortFacts.
Context {A : Type} (le : A → A → bool).

Lemma insert_sorted_perm (x : A) (s : list A) : insert_sorted le x s ≡ₚ x :: s.
Proof.
  induction s as [|y s IH]; simpl; [done|].
  destruct (le x y); [done|]. rewrite IH. apply Permutation_swap.
Qed.

Lemma stable_sort_perm (l : list A) : stable_sort le l ≡ₚ l.
Proof.
  induction l as [|x l IH]; simpl; [done|].
  by rewrite insert_sorted_perm, IH.
Qed.

(** Ordered by the key: no element is followed by one that should stand
    strictly before it. *)
Lemma insert_sorted_ordered (x : A) (s : list A) :
  (∀ a b, le a b = false → le b a = true) →
  (∀ a b c, le a b = true → le b c = true → le a c = true) →
  StronglySorted (λ a b, le a b = true) s →
  StronglySorted (λ a b, le a b = true) (insert_sorted le x s).
Proof.
  intros Htot Htrans. induction 1 as [|y s Hs IH Hy]; simpl.
  { repeat constructor. }
  destruct (le x y) eqn:Hxy.
  - constructor; [by constructor|]. constructor; [done|].
    eapply Forall_impl; [exact Hy|]. intros z Hz. by eapply Htrans.
  - constructor; [done|]. rewrite insert_sorted_perm.
    constructor; [by apply Htot|done].
Qed.

Lemma stable_sort_ordered (l : list A) :
  (∀ a b, le a b = false → le b a = true) →
  (∀ a b c, le a b = true → le b c = true → le a c = true) →
  StronglySorted (λ a b, le a b = true) (stable_sort le l).
Proof.
  intros Htot Htrans. induction l as [|x l IH]; simpl; [constructor|].
  by apply insert_sorted_ordered.
Qed.

(** Stability: the elements of any class that is closed under "same key"
    come out in the order in which they went in. *)
Lemma insert_sorted_stable (P : A → Prop) `{!∀ a, Decision (P a)} (x : A) (s : list A) :
  (∀ a, a ∈ s → P x → P a → le x a = true) →
  filter P (insert_sorted le x s) = filter P (x :: s).
Proof.
  induction s as [|y s IH]; intros Heq; simpl; [done|].
  destruct (le x y) eqn:Hxy; [done|].
  rewrite (filter_cons _ y), IH, !filter_cons.
  - destruct (decide (P y)) as [Py|]; [|done].
    destruct (decide (P x)) as [Px|]; [|done].
    rewrite Heq in Hxy; [done|by left|done..].
  - intros a Ha. apply Heq. by right.
Qed.

Lemma stable_sort_stable (P : A → Prop) `{!∀ a, Decision (P a)} (l : list A) :
  (∀ a b, P a → P b → le a b = true) →
  filter P (stable_sort le l) = filter P l.
Proof.
  intros Heq. induction l as [|x l IH]; simpl; [done|].
  rewrite insert_sorted_stable by auto. by rewrite !filter_cons, IH.
Qed.
End StableSortFacts.

(** ** Order on tokens *)
Section TokenOrder.
Import Text.

Lemma str_lt_trans (a b c : string) : str_lt a b → str_lt b c → str_lt a c.
Proof.
  unfold str_lt. intros Hab Hbc.
  apply String_as_OT.cmp_lt. apply String_as_OT.cmp_lt in Hab, Hbc.
  by eapply String_as_OT.lt_trans.
Qed.

Lemma str_compare_refl (a : string) : (a ?= a)%string = Eq.
Proof.
  pose proof (String.compare_antisym a a) as H.
  destruct (a ?= a)%string; simpl in H; congruence.
Qed.

Lemma str_lt_irrefl (a : string) : ¬ str_lt a a.
Proof. unfold str_lt. by rewrite str_compare_refl. Qed.

Lemma str_lt_asym (a b : string) : str_lt a b → ¬ str_lt b a.
Proof. intros Hab Hba. exact (str_lt_irrefl a (str_lt_trans _ _ _ Hab Hba)). Qed.

Lemma str_leb_true (a b : string) : String.leb a b = true → a ≠ b → str_lt a b.
Proof.
  unfold String.leb, str_lt. intros H Hne.
  destruct (a ?= b)%string eqn:E; [|done..].
  by apply String.compare_eq_iff in E.
Qed.

Lemma str_leb_false (a b : string) : String.leb a b = false → str_lt b a.
Proof.
  unfold String.leb, str_lt. rewrite (String.compare_antisym b a).
  by destruct (a ?= b)%string.
Qed.

Lemma vocab_order_irrefl (x : string * nat) : ¬ vocab_order x x.
Proof. intros [H|[_ H]]; [lia|by apply str_lt_irrefl in H]. Qed.

Lemma vocab_order_asym (x y : string * nat) : vocab_order x y → ¬ vocab_order y x.
Proof.
  intros [H|[H1 H2]] [H'|[H1' H2']]; try lia.
  by apply str_lt_asym in H2.
Qed.
End TokenOrder.

(** ** What [collections.Counter] holds *)
Section CounterFacts.
Import Text.

Lemma counter_incr_to_map (c : list (string * nat)) (tk : string) :
  (list_to_map (counter_incr c tk) : gmap string nat) =
  <[tk := S (default 0 ((list_to_map c : gmap string nat) !! tk))]> (list_to_map c).
Proof.
  induction c as [|[k n] c IH]; simpl; [done|].
  destruct (String.eqb_spec k tk) as [->|Hne]; simpl.
  - by rewrite lookup_insert_eq, insert_insert_eq.
  - rewrite IH, lookup_insert_ne by done. by apply insert_insert_ne.
Qed.

Lemma counter_incr_keys (c : list (string * nat)) (tk : string) :
  (counter_incr c tk).*1 = c.*1 ++ (if decide (tk ∈ c.*1) then [] else [tk]).
Proof.
  induction c as [|[k n] c IH]; csimpl; [done|].
  destruct (String.eqb_spec k tk) as [->|Hne]; csimpl.
  - rewrite decide_True by left. by rewrite app_nil_r.
  - rewrite IH. f_equal. f_equal.
    destruct (decide (tk ∈ c.*1)) as [Hin|Hnin].
    + rewrite decide_True; [done|by right].
    + rewrite decide_False; [done|]. by intros [->|?]%elem_of_cons.
Qed.

Lemma counter_incr_NoDup (c : list (string * nat)) (tk : string) :
  NoDup c.*1 → NoDup (counter_incr c tk).*1.
Proof.
  intros Hnd. rewrite counter_incr_keys.
  destruct (decide (tk ∈ c.*1)); [by rewrite app_nil_r|].
  apply NoDup_app. split_and!; [done| |apply NoDup_singleton].
  intros x Hx ->%list_elem_of_singleton. done.
Qed.

Lemma fold_counter_NoDup (l : list string) (c : list (string * nat)) :
  NoDup c.*1 → NoDup (fold_left counter_incr l c).*1.
Proof.
  revert c. induction l as [|tk l IH]; intros c Hc; simpl; [done|].
  by apply IH, counter_incr_NoDup.
Qed.

Lemma occurrences_notin (l : list string) (t : string) :
  t ∉ l → occurrences t l = 0.
Proof.
  intros Hnin. unfold occurrences.
  destruct (filter (λ x, x = t) l) as [|y k] eqn:E; [done|].
  assert (y ∈ filter (λ x, x = t) l) as [-> Hy]%list_elem_of_filter
    by (rewrite E; left). done.
Qed.

Lemma fold_counter_lookup (l : list string) (c : list (string * nat)) (t : string) :
  (list_to_map (fold_left counter_incr l c) : gmap string nat) !! t =
  if decide (t ∈ l)
  then Some (default 0 ((list_to_map c : gmap string nat) !! t) + occurrences t l)
  else (list_to_map c : gmap string nat) !! t.
Proof.
  revert c. induction l as [|tk l IH]; intros c; simpl; [done|].
  rewrite IH, counter_incr_to_map. unfold occurrences. rewrite filter_cons.
  destruct (decide (tk = t)) as [->|Hne].
  - rewrite lookup_insert_eq. simpl. rewrite (decide_True (P := t ∈ t :: l)) by left.
    destruct (decide (t ∈ l)) as [Hin|Hnin]; f_equal; [lia|].
    fold (occurrences t l). rewrite occurrences_notin by done. lia.
  - rewrite lookup_insert_ne by done.
    destruct (decide (t ∈ l)) as [Hin|Hnin].
    + rewrite decide_True by (by right). done.
    + rewrite decide_False; [done|]. intros [?|?]%elem_of_cons; congruence.
Qed.

Lemma Counter_NoDup (l : list string) : NoDup (Counter l).*1.
Proof. apply fold_counter_NoDup. constructor. Qed.

(** The counter holds exactly the tokens that occur, each with its number
    of occurrences. *)
Lemma elem_of_Counter (l : list string) (t : string) (n : nat) :
  (t, n) ∈ Counter l ↔ t ∈ l ∧ n = occurrences t l.
Proof.
  rewrite (elem_of_list_to_map (M := gmap string)) by apply Counter_NoDup.
  unfold Counter. rewrite fold_counter_lookup. simpl.
  rewrite lookup_empty. simpl. destruct (decide (t ∈ l)) as [Hin|Hnin].
  - split; [by intros [= <-]|by intros [_ ->]].
  - split; [done|by intros [? _]].
Qed.

End CounterFacts.

(** ** Sorted lists: positions follow the order *)
Section SortedPositions.
Context {A : Type} (R : relation A).

Lemma StronglySorted_lookup_lt (l : list A) (i j : nat) (x y : A) :
  StronglySorted R l → l !! i = Some x → l !! j = Some y → i < j → R x y.
Proof.
  intros Hs. revert i j. induction Hs as [|z l Hs IH Hz]; intros i j Hi Hj Hij.
  { by rewrite lookup_nil in Hi. }
  destruct j as [|j]; [lia|]. destruct i as [|i]; simpl in *.
  - injection Hi as ->. rewrite Forall_forall in Hz.
    apply Hz. by eapply list_elem_of_lookup_2.
  - eapply IH; eauto with lia.
Qed.

Lemma StronglySorted_before (l : list A) (x y : A) :
  (∀ a, ¬ R a a) → (∀ a b, R a b → ¬ R b a) →
  StronglySorted R l → x ∈ l → y ∈ l → R x y →
  ∃ i j, l !! i = Some x ∧ l !! j = Some y ∧ i < j.
Proof.
  intros Hirr Hasym Hs [i Hi]%list_elem_of_lookup [j Hj]%list_elem_of_lookup Hxy.
  exists i, j. split_and!; [done..|].
  destruct (Nat.lt_trichotomy i j) as [?|[->|Hji]]; [done| |].
  - rewrite Hi in Hj. injection Hj as ->. by apply Hirr in Hxy.
  - exfalso. eapply Hasym; [exact Hxy|].
    by eapply StronglySorted_lookup_lt.
Qed.

Lemma StronglySorted_filter (P : A → Prop) `{!∀ a, Decision (P a)} (l : list A) :
  StronglySorted R l → StronglySorted R (filter P l).
Proof.
  induction 1 as [|x l Hs IH Hx]; [constructor|].
  rewrite filter_cons. destruct (decide (P x)); [|done].
  constructor; [done|]. rewrite Forall_forall in Hx. apply Forall_forall.
  intros y [_ Hy]%list_elem_of_filter. by apply Hx.
Qed.
End SortedPositions.

(** ** The two sorts of [Vocab.__init__] *)
Section TokenFreqs.
Import Text.

Lemma insert_by_token_sorted (x : string * nat) (s : list (string * nat)) :
  StronglySorted (λ a b, str_lt a.1 b.1) s → x.1 ∉ s.*1 →
  StronglySorted (λ a b, str_lt a.1 b.1) (insert_sorted by_token x s).
Proof.
  induction 1 as [|y s Hs IH Hy]; intros Hx; simpl.
  { repeat constructor. }
  rewrite fmap_cons, not_elem_of_cons in Hx. destruct Hx as [Hxy Hx].
  unfold by_token at 1. destruct (String.leb x.1 y.1) eqn:E.
  - apply str_leb_true in E; [|done].
    constructor; [by constructor|]. constructor; [done|].
    eapply Forall_impl; [exact Hy|]. intros z Hz. simpl in *.
    by eapply str_lt_trans.
  - apply str_leb_false in E. constructor; [by apply IH|].
    rewrite insert_sorted_perm. by constructor.
Qed.

Lemma sort_by_token_sorted (l : list (string * nat)) :
  NoDup l.*1 → StronglySorted (λ a b, str_lt a.1 b.1) (stable_sort by_token l).
Proof.
  induction l as [|x l IH]; csimpl; [constructor|].
  rewrite NoDup_cons. intros [Hx Hnd].
  apply insert_by_token_sorted; [by apply IH|].
  by rewrite stable_sort_perm.
Qed.

Lemma insert_by_freq_sorted (x : string * nat) (s : list (string * nat)) :
  StronglySorted vocab_order s → Forall (λ z, str_lt x.1 z.1) s →
  StronglySorted vocab_order (insert_sorted by_freq_desc x s).
Proof.
  induction 1 as [|y s Hs IH Hy]; intros Hx; simpl.
  { repeat constructor. }
  apply Forall_cons in Hx as [Hxy Hx].
  unfold by_freq_desc at 1. destruct (Nat.leb_spec y.2 x.2) as [Hle|Hlt].
  - constructor; [by constructor|]. constructor.
    + unfold vocab_order. destruct (decide (x.2 = y.2)); [by right|left; lia].
    + rewrite Forall_forall in Hx, Hy. apply Forall_forall. intros z Hz.
      specialize (Hx z Hz). specialize (Hy z Hz). unfold vocab_order in *.
      destruct (decide (x.2 = z.2)); [by right|left; lia].
  - constructor; [by apply IH|]. rewrite insert_sorted_perm.
    constructor; [by left|done].
Qed.

Lemma sort_by_freq_sorted (l : list (string * nat)) :
  StronglySorted (λ a b, str_lt a.1 b.1) l →
  StronglySorted vocab_order (stable_sort by_freq_desc l).
Proof.
  induction 1 as [|x l Hs IH Hx]; simpl; [constructor|].
  apply insert_by_freq_sorted; [done|]. by rewrite stable_sort_perm.
Qed.

Lemma token_freqs_eq (tokens : list (list string)) (min_freq : Z) (u : bool) :
  token_freqs (Vocab_init tokens min_freq u) =
  stable_sort by_freq_desc (stable_sort by_token (count_corpus tokens)).
Proof. unfold Vocab_init. by destruct (fold_left _ _ _). Qed.

Lemma token_freqs_perm (tokens : list (list string)) (min_freq : Z) (u : bool) :
  token_freqs (Vocab_init tokens min_freq u) ≡ₚ count_corpus tokens.
Proof.
  unfold Vocab_init. destruct (fold_left _ _ _). simpl.
  by rewrite !stable_sort_perm.
Qed.

Lemma token_freqs_sorted (tokens : list (list string)) (min_freq : Z) (u : bool) :
  StronglySorted vocab_order (token_freqs (Vocab_init tokens min_freq u)).
Proof.
  unfold Vocab_init. destruct (fold_left _ _ _). simpl.
  apply sort_by_freq_sorted, sort_by_token_sorted, Counter_NoDup.
Qed.

Lemma elem_of_token_freqs tokens min_freq u (t : string) (n : nat) :
  (t, n) ∈ token_freqs (Vocab_init tokens min_freq u) ↔
  t ∈ concat tokens ∧ n = occurrences t (concat tokens).
Proof. rewrite token_freqs_perm. apply elem_of_Counter. Qed.

Lemma token_freqs_NoDup tokens min_freq u :
  NoDup (token_freqs (Vocab_init tokens min_freq u)).*1.
Proof. rewrite token_freqs_perm. apply Counter_NoDup. Qed.
End TokenFreqs.

(** ** The indexing loop of [Vocab.__init__] *)
Section Indexing.
Import Text.

Lemma fold_index_step_fst (l : list string) (st : list string * gmap string nat) :
  (fold_left index_step l st).1 = st.1 ++ l.
Proof.
  revert st. induction l as [|x l IH]; intros st; simpl.
  - by rewrite app_nil_r.
  - rewrite IH. simpl. by rewrite <- app_assoc.
Qed.

(** On a list without duplicates the dictionary is the inverse of the
    list. *)
Lemma fold_index_step_snd (l acc : list string) (m : gmap string nat) :
  NoDup (acc ++ l) →
  (∀ t i, m !! t = Some i ↔ acc !! i = Some t) →
  ∀ t i, (fold_left index_step l (acc, m)).2 !! t = Some i ↔ (acc ++ l) !! i = Some t.
Proof.
  revert acc m. induction l as [|x l IH]; intros acc m Hnd Hm t i; simpl.
  { rewrite app_nil_r. apply Hm. }
  unfold index_step at 2. simpl.
  replace (acc ++ x :: l) with ((acc ++ [x]) ++ l) in * by (by rewrite <- app_assoc).
  apply IH; [done|]. clear t i. intros t i.
  rewrite length_app. simpl. replace (length acc + 1 - 1) with (length acc) by lia.
  apply NoDup_app in Hnd as [Hnd _]. apply NoDup_app in Hnd as (_ & Hx & _).
  destruct (decide (x = t)) as [->|Hne].
  - rewrite lookup_insert_eq. split.
    + intros [= <-]. by rewrite lookup_app_r, Nat.sub_diag.
    + intros Hi. f_equal. apply lookup_app_Some in Hi as [Hi|[Hle Hi]].
      * exfalso. eapply Hx; [by eapply list_elem_of_lookup_2|left].
      * apply list_lookup_singleton_Some in Hi. lia.
  - rewrite lookup_insert_ne by done. rewrite Hm. split.
    + intros Hi. by apply lookup_app_l_Some.
    + intros Hi. apply lookup_app_Some in Hi as [Hi|[Hle Hi]]; [done|].
      apply list_lookup_singleton_Some in Hi as [_ ?]. congruence.
Qed.

Lemma idx_to_token_eq tokens min_freq u :
  idx_to_token (Vocab_init tokens min_freq u) = uniq_tokens tokens min_freq u.
Proof.
  unfold uniq_tokens, Vocab_init.
  destruct (fold_left index_step _ _) as [l m] eqn:E. simpl.
  change l with (l, m).1. rewrite <- E. by rewrite fold_index_step_fst.
Qed.

Lemma special_tokens_NoDup (u : bool) : NoDup (special_tokens u).
Proof. destruct u; by apply (bool_decide_unpack _). Qed.

Lemma uniq_tokens_NoDup tokens min_freq u : NoDup (uniq_tokens tokens min_freq u).
Proof.
  unfold uniq_tokens. apply NoDup_app. split_and!.
  - apply special_tokens_NoDup.
  - intros t Ht [[t' n] [-> Hin]]%list_elem_of_fmap.
    apply list_elem_of_filter in Hin as [[_ Hk] _]. done.
  - eapply sublist_NoDup; [apply (token_freqs_NoDup tokens min_freq u)|].
    apply fmap_sublist, sublist_filter.
Qed.

Lemma token_to_idx_lookup tokens min_freq u (t : string) (i : nat) :
  token_to_idx (Vocab_init tokens min_freq u) !! t = Some i ↔
  idx_to_token (Vocab_init tokens min_freq u) !! i = Some t.
Proof.
  rewrite idx_to_token_eq.
  pose proof (uniq_tokens_NoDup tokens min_freq u) as Hnd.
  unfold uniq_tokens in *. rewrite token_freqs_eq in *. unfold Vocab_init.
  destruct (fold_left index_step _ _) as [l m] eqn:E. simpl.
  change m with (l, m).2. rewrite <- E.
  apply (fold_index_step_snd _ [] ∅); [done|].
  intros t' i'. by rewrite lookup_empty, lookup_nil.
Qed.

(** A token of the corpus that passes the filter stands behind the special
    tokens, and two such tokens stand in the order of the sorted pairs. *)
Lemma kept_tokens_order tokens min_freq u (a b : string) (na nb : nat) :
  let v := Vocab_init tokens min_freq u in
  (a, na) ∈ token_freqs v → (b, nb) ∈ token_freqs v →
  kept min_freq (special_tokens u) (a, na) →
  kept min_freq (special_tokens u) (b, nb) →
  vocab_order (a, na) (b, nb) →
  ∃ i j : nat, token_to_idx v !! a = Some i ∧ token_to_idx v !! b = Some j ∧ i < j.
Proof.
  intros v Ha Hb Hka Hkb Hab.
  destruct (StronglySorted_before vocab_order
    (filter (kept min_freq (special_tokens u)) (token_freqs v)) (a, na) (b, nb))
    as (i & j & Hi & Hj & Hij).
  - apply vocab_order_irrefl.
  - apply vocab_order_asym.
  - apply StronglySorted_filter, token_freqs_sorted.
  - by apply list_elem_of_filter.
  - by apply list_elem_of_filter.
  - done.
  - exists (length (special_tokens u) + i), (length (special_tokens u) + j).
    subst v. rewrite !token_to_idx_lookup, idx_to_token_eq. unfold uniq_tokens.
    rewrite !lookup_app_r, !list_lookup_fmap by lia.
    replace (length (special_tokens u) + i - length (special_tokens u)) with i by lia.
    replace (length (special_tokens u) + j - length (special_tokens u)) with j by lia.
    rewrite Hi, Hj. split_and!; [done..|lia].
Qed.


Lemma kept_token_index tokens min_freq u (t : string) (n : nat) :
  let v := Vocab_init tokens min_freq u in
  (t, n) ∈ token_freqs v → kept min_freq (special_tokens u) (t, n) →
  ∃ i : nat, token_to_idx v !! t = Some i ∧ length (special_tokens u) ≤ i.
Proof.
  intros v Hin Hk.
  assert ((t, n) ∈ filter (kept min_freq (special_tokens u)) (token_freqs v))
    as Hf by (by apply list_elem_of_filter).
  apply list_elem_of_lookup in Hf as [i Hi].
  exists (length (special_tokens u) + i). subst v.
  rewrite token_to_idx_lookup, idx_to_token_eq. unfold uniq_tokens.
  rewrite lookup_app_r, list_lookup_fmap by lia.
  replace (length (special_tokens u) + i - length (special_tokens u)) with i by lia.
  rewrite Hi. split; [done|lia].
Qed.
End Indexing.

(** ** Claims about [Vocab] *)
Section VocabClaims.
Import Text.





(** C1, as amended.  With [min_freq=0] and [use_special_tokens=False],
    index 0 is ["<unk>"], and of two distinct tokens of the corpus the one
    with the strictly greater count has the strictly smaller index,
    provided the token with the smaller count is not ["<unk>"] itself
    (which keeps index 0 whatever its count). *)
Theorem Vocab_descending_frequency (tokens : list (list string)) (a b : string) :
  let v := Vocab_init tokens 0 false in
  a ∈ concat tokens → b ∈ concat tokens → a ≠ b → b ≠ "<unk>" →
  occurrences b (concat tokens) < occurrences a (concat tokens) →
  idx_to_token v !! 0 = Some "<unk>" ∧
  token_to_idx v !! "<unk>" = Some 0 ∧
  ∃ i j : nat, token_to_idx v !! a = Some i ∧ token_to_idx v !! b = Some j ∧ i < j.
Proof.
  intros v Ha Hb Hab Hunk Hlt.
  assert (idx_to_token v !! 0 = Some "<unk>") as H0.
  { subst v. by rewrite idx_to_token_eq. }
  split; [done|]. split; [by apply token_to_idx_lookup|].
  assert (kept 0 (special_tokens false) (b, occurrences b (concat tokens))) as Hkb.
  { split; simpl; [lia|]. by intros ->%list_elem_of_singleton. }
  assert ((b, occurrences b (concat tokens)) ∈ token_freqs v) as Hfb.
  { by apply elem_of_token_freqs. }
  assert ((a, occurrences a (concat tokens)) ∈ token_freqs v) as Hfa.
  { by apply elem_of_token_freqs. }
  destruct (decide (a = "<unk>")) as [->|Hne].
  - destruct (kept_token_index tokens 0 false _ _ Hfb Hkb) as (j & Hj & Hlen).
    exists 0, j. simpl in Hlen. split_and!; [by apply token_to_idx_lookup|done|lia].
  - eapply (kept_tokens_order tokens 0 false); [exact Hfa|exact Hfb| |exact Hkb|by left].
    split; simpl; [lia|]. by intros ->%list_elem_of_singleton.
Qed.

Lemma Vocab_descending_frequency_witness :
  let v := Vocab_init [["b"; "a"; "b"]; ["c"; "a"; "b"]] 0 false in
  idx_to_token v !! 0 = Some "<unk>" ∧
  token_to_idx v !! "<unk>" = Some 0 ∧
  ∃ i j : nat, token_to_idx v !! "b" = Some i ∧ token_to_idx v !! "c" = Some j ∧ i < j.
Proof.
  apply (Vocab_descending_frequency [["b"; "a"; "b"]; ["c"; "a"; "b"]] "b" "c").
  - by apply (bool_decide_unpack _).
  - by apply (bool_decide_unpack _).
  - done.
  - done.
  - vm_compute. lia.
Defined.

(** C1 as stated fails when ["<unk>"] occurs in the corpus: in
    [[["a", "a", "<unk>"]]] the token ["a"] has the greater count but
    ["<unk>"] keeps index 0. *)
Lemma Vocab_descending_frequency_unk_counterexample :
  let tokens := [["a"; "a"; "<unk>"]] in
  let v := Vocab_init tokens 0 false in
  "a" ∈ concat tokens ∧ "<unk>" ∈ concat tokens ∧ "a" ≠ "<unk>" ∧
  occurrences "<unk>" (concat tokens) < occurrences "a" (concat tokens) ∧
  token_to_idx v !! "a" = Some 1 ∧ token_to_idx v !! "<unk>" = Some 0 ∧
  ¬ (∃ i j : nat, token_to_idx v !! "a" = Some i ∧
                  token_to_idx v !! "<unk>" = Some j ∧ i < j).
Proof.
  cbv zeta. split_and!.
  - by apply (bool_decide_unpack _).
  - by apply (bool_decide_unpack _).
  - done.
  - vm_compute. lia.
  - by vm_compute.
  - by vm_compute.
  - intros (i & j & Hi & Hj & Hij). vm_compute in Hi, Hj.
    injection Hi as <-. injection Hj as <-. lia.
Qed.

Lemma py_index_nat {A} (l : list A) (i : nat) : py_index l (Z.of_nat i) = l !! i.
Proof.
  unfold py_index. rewrite (proj2 (Z.leb_le 0 (Z.of_nat i))) by lia.
  by rewrite Nat2Z.id.
Qed.

(** C8.  For every constructed [Vocab]: [token_to_idx[idx_to_token[i]] = i]
    for every index below [len(vocab)]; [to_tokens(vocab[t])] is [t] for
    every token of the vocabulary; and [vocab[t]] is [self.unk] for every
    other token. *)
Theorem Vocab_maps_inverse (tokens : list (list string)) (min_freq : Z) (u : bool) :
  let v := Vocab_init tokens min_freq u in
  (∀ i : nat, i < Vocab_len v →
     ∃ t, py_index (idx_to_token v) (Z.of_nat i) = Some t ∧
          token_to_idx v !! t = Some i) ∧
  (∀ t : string, t ∈ idx_to_token v →
     ∃ i : nat, Vocab_getitem v (One t) = One i ∧
                Vocab_to_tokens v (inl (Z.of_nat i)) = Some (inl t)) ∧
  (∀ t : string, t ∉ idx_to_token v → Vocab_getitem v (One t) = One (unk v)).
Proof.
  intros v. split_and!.
  - intros i Hi. apply lookup_lt_is_Some_2 in Hi as [t Ht].
    exists t. rewrite py_index_nat. split; [done|]. by apply token_to_idx_lookup.
  - intros t [i Hi]%list_elem_of_lookup. exists i. simpl.
    rewrite py_index_nat, Hi. split; [|done].
    apply (token_to_idx_lookup tokens min_freq u) in Hi. fold v in Hi.
    by rewrite Hi.
  - intros t Ht. simpl. destruct (token_to_idx v !! t) as [i|] eqn:E; [|done].
    apply (token_to_idx_lookup tokens min_freq u) in E. exfalso. apply Ht.
    by eapply list_elem_of_lookup_2.
Qed.

Lemma Vocab_maps_inverse_witness :
  let v := Vocab_init [["b"; "a"; "b"]; ["c"; "a"; "b"]] 2 true in
  (∃ t, py_index (idx_to_token v) 5 = Some t ∧ token_to_idx v !! t = Some 5) ∧
  (∃ i : nat, Vocab_getitem v (One "a") = One i ∧
              Vocab_to_tokens v (inl (Z.of_nat i)) = Some (inl "a")) ∧
  Vocab_getitem v (One "c") = One (unk v).
Proof.
  destruct (Vocab_maps_inverse [["b"; "a"; "b"]; ["c"; "a"; "b"]] 2 true)
    as (H1 & H2 & H3).
  split_and!.
  - apply (H1 5). vm_compute. lia.
  - apply H2. by apply (bool_decide_unpack _).
  - apply H3. by apply (bool_decide_unpack _).
Defined.



End VocabClaims.

(** ** Claims about [tokenize] *)
Section TokenizeClaims.
Import Text.

Lemma split_on_nonempty (sep : ascii) (s : string) : split_on sep s ≠ [].
Proof.
  induction s as [|c s IH]; simpl; [done|].
  destruct (Ascii.eqb c sep); [done|]. by destruct (split_on sep s).
Qed.

(** [sep.join(s.split(sep)) == s] *)
Lemma split_on_join (sep : ascii) (s : string) :
  String.concat (String sep EmptyString) (split_on sep s) = s.
Proof.
  induction s as [|c s IH]; simpl; [done|].
  pose proof (split_on_nonempty sep s) as Hne.
  destruct (Ascii.eqb_spec c sep) as [->|Hc].
  - destruct (split_on sep s) as [|w ws]; [done|]. simpl in *. by rewrite IH.
  - destruct (split_on sep s) as [|w ws]; [done|].
    destruct ws as [|w' ws]; simpl in *; by rewrite <- IH.
Qed.

Lemma split_on_free (sep : ascii) (s : string) :
  Forall (free_of sep) (split_on sep s).
Proof.
  induction s as [|c s IH]; simpl.
  { repeat constructor. }
  destruct (Ascii.eqb_spec c sep) as [->|Hc].
  - constructor; [constructor|done].
  - destruct (split_on sep s) as [|w ws]; [repeat constructor; done|].
    apply Forall_cons in IH as [Hw Hws]. constructor; [|done].
    by constructor.
Qed.

(** [''.join(list(s)) == s], every element being one character *)
Lemma chars_join (s : string) : String.concat EmptyString (chars s) = s.
Proof.
  induction s as [|c s IH]; simpl; [done|].
  destruct (chars s) as [|w ws] eqn:E; simpl in *; by rewrite <- IH.
Qed.

Lemma chars_single (s : string) : Forall (λ c, String.length c = 1) (chars s).
Proof. induction s; simpl; by constructor. Qed.

(** C4.  A mode other than ['word'] and ['char'] makes [tokenize] print
    ['ERROR: unkown token type '] followed by the mode and return [None];
    mode ['word'] returns for each line its split at the spaces (the words
    contain no space and joined by spaces give the line back); mode
    ['char'] returns for each line the list of its characters. *)
Theorem tokenize_modes (lines : list string) (token : string) :
  (token ≠ "word" → token ≠ "char" →
     tokenize lines token = (print ("ERROR: unkown token type " +:+ token), None)) ∧
  (∃ r, tokenize lines "word" = ("", Some r) ∧
        Forall2 (λ line ws, String.concat " " ws = line ∧ ws ≠ [] ∧
                            Forall (free_of " "%char) ws) lines r) ∧
  (∃ r, tokenize lines "char" = ("", Some r) ∧
        Forall2 (λ line cs, String.concat "" cs = line ∧
                            length cs = String.length line ∧
                            Forall (λ c, String.length c = 1) cs) lines r).
Proof.
  split_and!.
  - intros Hw Hc. unfold tokenize.
    destruct (String.eqb_spec token "word"); [done|].
    by destruct (String.eqb_spec token "char").
  - eexists. split; [reflexivity|].
    apply Forall2_fmap_r, Forall_Forall2_diag, Forall_forall. intros line _.
    split_and!; [apply split_on_join|apply split_on_nonempty|apply split_on_free].
  - eexists. split; [reflexivity|].
    apply Forall2_fmap_r, Forall_Forall2_diag, Forall_forall. intros line _.
    split_and!; [apply chars_join| |apply chars_single].
    induction line; simpl; by f_equal.
Qed.

Lemma tokenize_modes_witness :
  tokenize ["the time machine"; ""] "sentence" =
    (print "ERROR: unkown token type sentence", None).
Proof.
  by apply (proj1 (tokenize_modes ["the time machine"; ""] "sentence")).
Defined.

Example tokenize_word :
  tokenize ["the time  machine "; ""] "word" =
    ("", Some [["the"; "time"; ""; "machine"; ""]; [""]]).
Proof. reflexivity. Qed.

Example tokenize_char :
  tokenize ["by h"; ""] "char" = ("", Some [["b"; "y"; " "; "h"]; []]).
Proof. reflexivity. Qed.
End TokenizeClaims.

(** ** Claims about [CTRDataset] *)
Section CTRFacts.
Import CTR.
Variable int_of_str : string → option Z.
Variable float32_of_str : string → option Q.
Variable set_order : list string → list string.

(** The inner loop appends [values[a], ..., values[a+m-1]] to
    [instance['x']], which it creates on its first round. *)
Lemma feat_loop_x (values : list string) (m a : nat) fc x0 fc' x :
  fold_left (feat_step values) (seq a m) (Some (fc, x0)) = Some (fc', x) →
  a + m ≤ length values →
  x = if decide (m = 0) then x0 else Some (default [] x0 ++ take m (drop a values)).
Proof.
  revert a fc x0. induction m as [|m IH]; intros a fc x0; simpl.
  { by intros [= _ <-]. }
  intros Hf Hlen.
  destruct (values !! a) as [v|] eqn:Hv;
    [|apply lookup_ge_None in Hv; lia].
  simpl in Hf. apply IH in Hf; [|lia]. rewrite Hf.
  rewrite (drop_S values v a) by done. simpl.
  destruct (decide (m = 0)) as [->|_].
  - by rewrite take_0.
  - by rewrite <- app_assoc.
Qed.


Lemma read_line_None (n : nat) (lines : list string) :
  fold_left (read_line int_of_str float32_of_str n) lines None = None.
Proof. by induction lines. Qed.

(** One round of the reading loop: a line that is not well formed leaves
    the state alone, a well-formed one is stored under the next number. *)
Lemma read_line_step (n : nat) (ld ld' : loader) (line : string) :
  read_line int_of_str float32_of_str n (Some ld) line = Some ld' →
  (¬ well_formed n line ∧ ld' = ld) ∨
  (well_formed n line ∧
   ∃ inst, record_of int_of_str float32_of_str n line = Some inst ∧
           ld_count ld' = ld_count ld + 1 ∧
           ld_data ld' = <[ld_count ld := inst]> (ld_data ld)).
Proof.
  unfold read_line, record_of, well_formed. simpl.
  set (values := Text.split_on tab (rstrip line_feed line)).
  destruct (decide (length values ≠ n + 1)) as [Hne|Heq].
  { intros [= <-]. by left. }
  apply dec_stable in Heq. intros H. right. split; [done|].
  destruct (values !! 0) as [v0|]; simpl in *; [|done].
  destruct (int_of_str v0) as [k|]; simpl in *; [|done].
  destruct (np_setitem _ k 1); simpl in *; [|done].
  destruct (float32_of_str v0) as [y|]; simpl in *; [|done].
  destruct (fold_left _ _ _) as [[fc x]|] eqn:Hf; simpl in *; [|done].
  injection H as <-. simpl. eexists. split_and!; [|done..].
  apply feat_loop_x in Hf; [|lia]. subst x. do 2 f_equal.
  destruct (decide (n = 0)); [done|]. simpl. f_equal.
  symmetry. apply take_ge. rewrite length_drop. lia.
Qed.

(** The whole reading loop, started in any state. *)
Lemma read_lines_spec (n : nat) (lines : list string) (ld0 ld : loader) :
  fold_left (read_line int_of_str float32_of_str n) lines (Some ld0) = Some ld →
  let wf := filter (well_formed n) lines in
  ld_count ld = ld_count ld0 + length wf ∧
  Forall (λ line, is_Some (record_of int_of_str float32_of_str n line)) wf ∧
  ∀ k, ld_data ld !! k =
       if decide (k < ld_count ld0) then ld_data ld0 !! k
       else match wf !! (k - ld_count ld0) with
            | Some line => record_of int_of_str float32_of_str n line
            | None => ld_data ld0 !! k
            end.
Proof.
  revert ld0. induction lines as [|line lines IH]; intros ld0; cbn [fold_left].
  { intros [= <-]. split_and!; [simpl; lia|constructor|].
    intros k. by destruct (decide _). }
  destruct (read_line int_of_str float32_of_str n (Some ld0) line) as [ld1|] eqn:H1;
    [|by rewrite read_line_None].
  intros Hf. apply IH in Hf as (Hc & Hall & Hd). rewrite filter_cons.
  apply read_line_step in H1 as [[Hnwf ->]|(Hwf & inst & Hinst & Hc1 & Hd1)].
  - by rewrite decide_False.
  - rewrite decide_True by done. simpl. split_and!; [lia|by constructor|].
    intros k. rewrite Hd, Hc1, Hd1.
    destruct (decide (k < ld_count ld0)) as [Hlt|Hge].
    + rewrite decide_True by lia. by rewrite lookup_insert_ne by lia.
    + destruct (decide (k = ld_count ld0)) as [->|Hne].
      * rewrite decide_True by lia. rewrite Nat.sub_diag. simpl.
        by rewrite lookup_insert_eq.
      * rewrite decide_False by lia.
        replace (k - ld_count ld0) with (S (k - (ld_count ld0 + 1))) by lia.
        simpl. destruct (filter _ lines !! _); [done|].
        by rewrite lookup_insert_ne by lia.
Qed.

(** What [__init__] leaves in [self.count] and [self.data]. *)
Lemma init_data (lines : list string) fm df (min_threshold : Z) (n : nat)
    (d : CTRDataset) :
  CTRDataset_init int_of_str float32_of_str set_order lines fm df min_threshold n
    = Some d →
  let wf := filter (well_formed n) lines in
  NUM_FEATS d = n ∧
  count d = length wf ∧
  Forall (λ line, is_Some (record_of int_of_str float32_of_str n line)) wf ∧
  ∀ k, data d !! k = wf !! k ≫= record_of int_of_str float32_of_str n.
Proof.
  unfold CTRDataset_init. intros H.
  destruct (fold_left (read_line _ _ n) lines _) as [ld|] eqn:Hld; simpl in H; [|done].
  apply read_lines_spec in Hld as (Hc & Hall & Hd). simpl in *.
  assert (count d = ld_count ld ∧ data d = ld_data ld ∧ NUM_FEATS d = n)
    as (-> & -> & ->).
  { destruct fm, df; simpl in H; try done;
      (destruct (fold_left dims_step _ _); simpl in H; [|done]);
      by injection H as <-. }
  split_and!; [done..|]. intros k. rewrite Hd, Nat.sub_0_r.
  destruct (_ !! k); [done|]. by rewrite lookup_empty.
Qed.


Lemma np_setitem_label_range (k : Z) (l : list Z) :
  np_setitem [0; 0]%Z k 1 = Some l → (-2 ≤ k ≤ 1)%Z.
Proof.
  unfold np_setitem. simpl length. change (Z.of_nat 2) with 2%Z.
  repeat match goal with
         | |- context [(?a <=? ?b)%Z] => destruct (Z.leb_spec a b)
         | |- context [(?a <? ?b)%Z] => destruct (Z.ltb_spec a b)
         end; simpl; intros; simplify_eq; lia.
Qed.

(** C5, as amended.  The label component that [__getitem__] returns for
    record [idx] is the one-element list holding [np.float32] of the first
    column of the [idx]-th well-formed line, a column that [int] reads as
    an index into the two-element array [label]: it is the click indicator
    of that one record, and no ratio of clicks to impressions is
    computed. *)
Theorem CTRDataset_label_is_first_column (lines : list string) fm df
    (min_threshold : Z) (num_feat : nat) (d : CTRDataset) (idx : Z)
    (feat : list Z) (label : list Q) :
  CTRDataset_init int_of_str float32_of_str set_order lines fm df
    min_threshold num_feat = Some d →
  CTRDataset_getitem d idx = Some (feat, label) →
  ∃ (line v0 : string) (k : Z) (y : Q),
    (0 ≤ idx)%Z ∧
    filter (well_formed num_feat) lines !! Z.to_nat idx = Some line ∧
    Text.split_on tab (rstrip line_feed line) !! 0 = Some v0 ∧
    int_of_str v0 = Some k ∧ (-2 ≤ k ≤ 1)%Z ∧
    float32_of_str v0 = Some y ∧
    label = [y].
Proof.
  intros H Hg. apply init_data in H as (_ & _ & _ & Hd).
  unfold CTRDataset_getitem in Hg.
  destruct (Z.ltb_spec idx 0) as [?|Hidx]; simpl in Hg; [done|].
  destruct (data d !! Z.to_nat idx) as [inst|] eqn:Hi; simpl in Hg; [|done].
  destruct (inst_x inst); simpl in Hg; [|done].
  destruct (feat_mapper d); simpl in Hg; [|done].
  destruct (mapM _ _); simpl in Hg; [|done].
  destruct (np_add _ _); simpl in Hg; [|done].
  injection Hg as _ <-.
  rewrite Hd in Hi.
  destruct (filter _ lines !! Z.to_nat idx) as [line|] eqn:Hl; simpl in Hi; [|done].
  unfold record_of in Hi.
  destruct (Text.split_on tab _ !! 0) as [v0|] eqn:Hv; simpl in Hi; [|done].
  destruct (int_of_str v0) as [k|] eqn:Hk; simpl in Hi; [|done].
  destruct (np_setitem _ k 1) eqn:Hs; simpl in Hi; [|done].
  destruct (float32_of_str v0) as [y|] eqn:Hy; simpl in Hi; [|done].
  injection Hi as <-. exists line, v0, k, y.
  apply np_setitem_label_range in Hs. split_and!; try done; lia.
Qed.
End CTRFacts.

Section CTRExamples.
Import CTR.


Lemma CTRDataset_label_is_first_column_witness :
  ∃ (line v0 : string) (k : Z) (y : Q),
    (0 ≤ 1)%Z ∧
    filter (well_formed 2) sample_file !! Z.to_nat 1 = Some line ∧
    Text.split_on tab (rstrip line_feed line) !! 0 = Some v0 ∧
    read_bit v0 = Some k ∧ (-2 ≤ k ≤ 1)%Z ∧
    read_label v0 = Some y ∧
    [0%Q] = [y].
Proof.
  destruct (CTRDataset_init read_bit read_label insertion_order sample_file None None 4 2)
    as [d|] eqn:E; [|by vm_compute in E].
  apply (CTRDataset_label_is_first_column read_bit read_label insertion_order
           sample_file None None 4 2 d 1 [0; 1]%Z [0%Q] E).
  vm_compute in E. injection E as <-. by vm_compute.
Defined.

(** C5 as stated fails: in a file of two records, one clicked and one
    not, the ratio of clicks to impressions is 1/2, and the label that
    [__getitem__] returns for record 0 is 1. *)
Lemma CTRDataset_label_ratio_counterexample :
  let file := [tsv_line ["1"; "a"]; tsv_line ["0"; "b"]] in
  let d := CTRDataset_init read_bit read_label insertion_order file None None 4 1 in
  (d ≫= λ d, CTRDataset_getitem d 0) = Some ([0%Z], [1%Q]) ∧
  clicks <$> d = Some 1 ∧ impressions <$> d = Some 2 ∧
  click_through_rate <$> d = Some (1 # 2)%Q ∧
  ¬ (1 == 1 # 2)%Q.
Proof. cbv zeta. split_and!; try (by vm_compute). Qed.
End CTRExamples.

(** ** Claim about the dependency manifest *)
Section ManifestClaims.
Import Manifest.

(** C7, as amended.  The manifest has twenty requirement entries; exactly
    three of them, [sphinx-gallery], [awscli] and [pillow], specify an exact
    version, and each of the other seventeen names a package (or an editable
    repository) without any version. *)
Theorem manifest_pins :
  length (entries requirements_txt) = 20 ∧
  omap pinned (entries requirements_txt) =
    [("sphinx-gallery", "0.3.1"); ("awscli", "1.16.35"); ("pillow", "6.2.0")] ∧
  Forall (λ line, pinned line = None → unversioned line = true)
         (entries requirements_txt) ∧
  length (List.filter unversioned (entries requirements_txt)) = 17.
Proof.
  split_and!; [reflexivity..| |reflexivity].
  apply (bool_decide_unpack _). vm_compute. exact I.
Qed.

(** C7 as stated fails on the first entry of the file: [sphinx] is a
    requirement entry and specifies no version. *)
Lemma manifest_unpinned_counterexample :
  "sphinx" ∈ requirements_txt ∧ is_entry "sphinx" = true ∧
  pinned "sphinx" = None ∧
  ¬ Forall (λ line, is_Some (pinned line)) (entries requirements_txt).
Proof.
  split_and!; [by apply (bool_decide_unpack _)|reflexivity..|].
  intros H. rewrite Forall_forall in H. destruct (H "sphinx") as [x Hx].
  - apply (bool_decide_unpack _). vm_compute. exact I.
  - by vm_compute in Hx.
Qed.
End ManifestClaims.

(** ** Claim about [fancy_func] and the program of [evoke_] *)
Section HybridizeClaims.
Import Hybridize.

Example evoke_compiles :
  compile evoke_ =
  Some [ TDef "add" ["a"; "b"] [SReturn (EAdd (EVar "a") (EVar "b"))];
         TDef "fancy_func" ["a"; "b"; "c"; "d"]
           [ SAssign "e" (ECall "add" [EVar "a"; EVar "b"]);
             SAssign "f" (ECall "add" [EVar "c"; EVar "d"]);
             SAssign "g" (ECall "add" [EVar "e"; EVar "f"]);
             SReturn (EVar "g") ];
         TStmt (SPrint (ECall "fancy_func" [EInt 1; EInt 2; EInt 3; EInt 4])) ].
Proof. by vm_compute. Qed.

(** C6.  [fancy_func(a, b, c, d)] returns [(a + b) + (c + d)]; the text of
    [evoke_()] compiles, and executing it prints the value of
    [fancy_func(1, 2, 3, 4)], which is 10; and the function [fancy_func]
    that the compiled text defines returns, on all integer arguments, what
    the imperative [fancy_func] returns. *)
Theorem hybridize_preserves_result :
  (∀ a b c d : Z, fancy_func a b c d = ((a + b) + (c + d))%Z) ∧
  fancy_func 1 2 3 4 = 10%Z ∧
  (∃ y, compile evoke_ = Some y ∧
        exec y = Some (Text.print (str (fancy_func 1 2 3 4))) ∧
        exec y = Some (Text.print "10") ∧
        ∀ a b c d : Z,
          call recursion_limit (defined y) "fancy_func" [a; b; c; d] =
          Some (fancy_func a b c d)).
Proof.
  split; [reflexivity|]. split; [reflexivity|].
  eexists. split; [apply evoke_compiles|]. split_and!; [by vm_compute..|].
  intros a b c d. vm_compute. reflexivity.
Qed.
End HybridizeClaims.

(** ** Claim about the transposed convolution *)
Section ConvClaims.
Import Conv.

Example trans_conv_notebook :
  trans_conv (mkArray 2 2 [0; 1; 2; 3]%Z) (mkArray 2 2 [0; 1; 2; 3]%Z) =
  Some (mkArray 3 3 [0; 0; 1; 0; 4; 6; 4; 12; 9]%Z).
Proof. by vm_compute. Qed.

Example kernel2matrix_notebook :
  kernel2matrix (mkArray 2 2 [0; 1; 2; 3]%Z) =
  Some (mkArray 4 9 [0; 1; 0; 2; 3; 0; 0; 0; 0;
                     0; 0; 1; 0; 2; 3; 0; 0; 0;
                     0; 0; 0; 0; 1; 0; 2; 3; 0;
                     0; 0; 0; 0; 0; 1; 0; 2; 3]%Z).
Proof. by vm_compute. Qed.

Example corr2d_notebook :
  corr2d (mkArray 3 3 [0; 1; 2; 3; 4; 5; 6; 7; 8]%Z) (mkArray 2 2 [0; 1; 2; 3]%Z) =
  Some (mkArray 2 2 [19; 25; 37; 43]%Z).
Proof. by vm_compute. Qed.




End ConvClaims.

(** ** Claim about the attention layers *)
Section AttentionClaims.
Import Attention.
Local Open Scope R_scope.












(** A convex combination stays below every bound of the vectors it
    combines, column by column. *)
Lemma weighted_sum_le (a : list R) (B : matrix) (k : nat) (M : R) :
  distribution a → length a = length B →
  Forall (λ b, nth k b 0 <= M) B →
  Rsum (zip_with (λ w b, w * nth k b 0) a B) <= M.
Proof.
  intros [Hpos Hsum] Hlen HB. rewrite <- (Rmult_1_l M), <- Hsum. clear Hsum.
  revert B Hlen HB. induction Hpos as [|w a Hw Ha IH]; intros B Hlen HB.
  - simpl. lra.
  - destruct B as [|b B]; [done|]. apply Forall_cons in HB as [Hb HB].
    simpl in *. specialize (IH B ltac:(lia) HB).
    assert (w * nth k b 0 <= w * M) by (by apply Rmult_le_compat_l). lra.
Qed.


End AttentionClaims.

(** * Further properties of the code *)

(** ** [read_time_machine] and [tokenize] *)
Section CorpusFacts.
Import Text Corpus.

Lemma lower_char_alpha (c : ascii) :
  is_alpha (lower_char c) = true → is_lower (lower_char c) = true.
Proof. destruct c as [[] [] [] [] [] [] [] []]; by vm_compute. Qed.

Lemma lower_chars (s : string) :
  Forall (λ c, is_alpha c = true → is_lower c = true) (list_ascii_of_string (lower s)).
Proof.
  induction s as [|c s IH]; simpl; constructor; [apply lower_char_alpha|done].
Qed.

Lemma sub_non_letters_chars (Q : ascii → Prop) (b : bool) (s : string) :
  Forall (λ c, is_alpha c = true → Q c) (list_ascii_of_string s) →
  Forall (λ c, Q c ∨ c = " "%char) (list_ascii_of_string (sub_non_letters b s)).
Proof.
  revert b. induction s as [|c s IH]; intros b H; simpl; [constructor|].
  apply Forall_cons in H as [Hc H]. destruct (is_alpha c) eqn:E.
  - simpl. constructor; [left; by apply Hc|by apply IH].
  - destruct b; [by apply IH|]. simpl. constructor; [by right|by apply IH].
Qed.

(** What [re.sub] writes never has two spaces in a row, and does not start
    with a space inside a run. *)
Lemma sub_non_letters_spaced (b : bool) (s : string) :
  single_spaced (sub_non_letters b s) = true ∧
  (b = true → starts_with_space (sub_non_letters b s) = false).
Proof.
  revert b. induction s as [|c s IH]; intros b; simpl; [by auto|].
  destruct (is_alpha c) eqn:E.
  - assert (Ascii.eqb c " " = false) as Hc.
    { apply Ascii.eqb_neq. by intros ->. }
    destruct (IH false) as [IH1 _]. split; [|done].
    simpl. destruct (sub_non_letters false s) as [|d r]; [done|].
    by rewrite IH1, Hc.
  - destruct (IH true) as [IH1 IH2]. destruct b; [by split; auto|]. split; [|done].
    simpl. destruct (sub_non_letters true s) as [|d r] eqn:Er; [done|].
    rewrite IH1, andb_true_r. simpl in IH2. by rewrite IH2.
Qed.

Lemma normalised_clean (line : string) :
  clean_line (sub_non_letters false (lower (strip line))).
Proof.
  split.
  - apply sub_non_letters_chars, lower_chars.
  - apply sub_non_letters_spaced.
Qed.

(** X1.  Every line that [read_time_machine] returns is made of lower-case
    letters and single spaces: no other character, and no two spaces in a
    row. *)
Theorem read_time_machine_clean (file : list string) :
  length (read_time_machine file) = length file ∧
  Forall clean_line (read_time_machine file).
Proof.
  unfold read_time_machine. split; [by rewrite length_fmap|].
  apply Forall_fmap, Forall_forall. intros line _. apply normalised_clean.
Qed.

Lemma split_on_chars (Q : ascii → Prop) (sep : ascii) (s : string) :
  Forall (λ c, Q c ∨ c = sep) (list_ascii_of_string s) →
  Forall (λ w, Forall Q (list_ascii_of_string w)) (split_on sep s).
Proof.
  induction s as [|c s IH]; simpl; intros H.
  { repeat constructor. }
  apply Forall_cons in H as [Hc H]. specialize (IH H).
  destruct (Ascii.eqb_spec c sep) as [->|Hne].
  - constructor; [constructor|done].
  - destruct Hc as [Hc|]; [|done].
    destruct (split_on sep s) as [|w ws]; [repeat constructor; done|].
    apply Forall_cons in IH as [Hw Hws]. constructor; [by constructor|done].
Qed.

Lemma single_spaced_tail (c : ascii) (s : string) :
  single_spaced (String c s) = true →
  single_spaced s = true ∧ (c = " "%char → starts_with_space s = false).
Proof.
  simpl. destruct s as [|d s]; [done|]. intros [H1 H2]%andb_true_iff.
  split; [done|]. intros ->. simpl in *.
  by destruct (Ascii.eqb d " ").
Qed.

(** Between two spaces that are not adjacent there is a word. *)
Lemma split_on_interior (s : string) :
  single_spaced s = true → Forall (λ w, w ≠ "") (interior (split_on " " s)).
Proof.
  induction s as [|c s IH]; intros Hs; [constructor|].
  apply single_spaced_tail in Hs as [Hs Hc]. specialize (IH Hs).
  change (split_on " " (String c s)) with
    (if Ascii.eqb c " " then EmptyString :: split_on " " s
     else match split_on " " s with
          | [] => [String c EmptyString]
          | w :: ws => String c w :: ws
          end).
  destruct (Ascii.eqb_spec c " ") as [->|Hne].
  - unfold interior in *. simpl tail.
    destruct s as [|d s]; [constructor|]. specialize (Hc eq_refl). simpl in Hc.
    change (split_on " " (String d s)) with
      (if Ascii.eqb d " " then EmptyString :: split_on " " s
       else match split_on " " s with
            | [] => [String d EmptyString]
            | w :: ws => String d w :: ws
            end) in *.
    rewrite Hc in *. destruct (split_on " " s) as [|w ws]; [constructor|].
    simpl in *. destruct ws as [|w' ws]; [constructor|].
    constructor; [done|exact IH].
  - unfold interior in *. by destruct (split_on " " s).
Qed.

(** X2.  The words that [tokenize] cuts out of the lines of
    [read_time_machine] are made of lower-case letters; a word can be empty
    only at the start or at the end of its line. *)
Theorem tokenize_read_time_machine (file : list string) :
  ∃ tokens, (tokenize (read_time_machine file) "word").2 = Some tokens ∧
    length tokens = length file ∧
    Forall (λ ws, ws ≠ [] ∧ Forall lower_word ws ∧
                  Forall (λ w, w ≠ "") (interior ws)) tokens.
Proof.
  eexists. split; [reflexivity|]. split.
  { unfold read_time_machine. by rewrite length_map, length_fmap. }
  apply Forall_fmap, Forall_fmap, Forall_forall. intros line _.
  destruct (normalised_clean line) as [Hchars Hsp]. simpl. split_and!.
  - apply split_on_nonempty.
  - by apply split_on_chars.
  - by apply split_on_interior.
Qed.

Example read_time_machine_line :
  read_time_machine ["  The Time Machine, by H. G. Wells [1898]  "] =
  ["the time machine by h g wells "].
Proof. reflexivity. Qed.
End CorpusFacts.

(** ** [Vocab]: what is in the vocabulary, and decoding *)
Section VocabFacts.
Import Text.

Lemma unk_token (tokens : list (list string)) (min_freq : Z) (u : bool) :
  idx_to_token (Vocab_init tokens min_freq u) !! unk (Vocab_init tokens min_freq u)
  = Some "<unk>".
Proof.
  rewrite idx_to_token_eq. unfold uniq_tokens, Vocab_init.
  destruct (fold_left index_step _ _). by destruct u.
Qed.

Lemma unk_eq (tokens : list (list string)) (min_freq : Z) (u : bool) :
  unk (Vocab_init tokens min_freq u) = if u then 3 else 0.
Proof. unfold Vocab_init. by destruct (fold_left index_step _ _). Qed.

(** The tokens of the vocabulary: the special tokens, and the tokens of the
    corpus that occur at least [min_freq] times. *)
Lemma elem_of_idx_to_token (tokens : list (list string)) (min_freq : Z) (u : bool)
    (t : string) :
  t ∈ idx_to_token (Vocab_init tokens min_freq u) ↔
  t ∈ special_tokens u ∨
  (t ∈ concat tokens ∧ (min_freq ≤ Z.of_nat (occurrences t (concat tokens)))%Z).
Proof.
  rewrite idx_to_token_eq. unfold uniq_tokens. rewrite elem_of_app. split.
  - intros [?|Hin]; [by left|].
    apply list_elem_of_fmap in Hin as ([t' n] & -> & Hin).
    apply list_elem_of_filter in Hin as [[Hn _] Hin].
    apply elem_of_token_freqs in Hin as [Hin ->]. by right.
  - intros [?|[Hin Hn]]; [by left|].
    destruct (decide (t ∈ special_tokens u)); [by left|]. right.
    apply list_elem_of_fmap. exists (t, occurrences t (concat tokens)).
    split; [done|]. apply list_elem_of_filter. split; [by split|].
    by apply elem_of_token_freqs.
Qed.

(** X3.  A token is in the vocabulary exactly when it is a special token
    or occurs at least [min_freq] times in the corpus; every other token, in
    particular a token of the corpus that is too rare, is mapped to
    [self.unk]. *)
Theorem Vocab_min_freq (tokens : list (list string)) (min_freq : Z) (u : bool)
    (t : string) :
  let v := Vocab_init tokens min_freq u in
  (t ∈ idx_to_token v ↔
     t ∈ special_tokens u ∨
     (t ∈ concat tokens ∧ (min_freq ≤ Z.of_nat (occurrences t (concat tokens)))%Z)) ∧
  (is_Some (token_to_idx v !! t) ↔ t ∈ idx_to_token v) ∧
  (t ∉ special_tokens u →
   (Z.of_nat (occurrences t (concat tokens)) < min_freq)%Z ∨ t ∉ concat tokens →
   Vocab_getitem v (One t) = One (unk v)).
Proof.
  intros v. split; [apply elem_of_idx_to_token|]. split.
  - split.
    + intros [i Hi]. apply token_to_idx_lookup in Hi.
      by eapply list_elem_of_lookup_2.
    + intros [i Hi]%list_elem_of_lookup. exists i. by apply token_to_idx_lookup.
  - intros Hsp Hrare. simpl. destruct (token_to_idx v !! t) as [i|] eqn:E; [|done].
    apply token_to_idx_lookup in E. apply list_elem_of_lookup_2 in E.
    apply elem_of_idx_to_token in E as [?|[Hin Hn]]; [done|].
    destruct Hrare; [lia|done].
Qed.

Lemma Vocab_min_freq_witness :
  let v := Vocab_init [["b"; "a"; "b"]; ["c"; "a"; "b"]] 2 false in
  Vocab_getitem v (One "c") = One (unk v).
Proof.
  apply (Vocab_min_freq [["b"; "a"; "b"]; ["c"; "a"; "b"]] 2 false "c").
  - by apply (bool_decide_unpack _).
  - left. vm_compute. done.
Defined.

(** X4.  Decoding what [vocab[...]] returns for a list of tokens gives the
    list back with every token that is not in the vocabulary replaced by
    ['<unk>']; on a single token that is not in the vocabulary, ['<unk>']. *)
Theorem Vocab_decode_encode (tokens : list (list string)) (min_freq : Z) (u : bool)
    (l : list string) :
  let v := Vocab_init tokens min_freq u in
  (∃ idxs : list nat,
     Vocab_getitem v (Many (One <$> l)) = Many (One <$> idxs) ∧
     Vocab_to_tokens v (inr (Z.of_nat <$> idxs)) =
       Some (inr ((λ t, if decide (t ∈ idx_to_token v) then t else "<unk>") <$> l))) ∧
  (∀ t, t ∉ idx_to_token v →
     ∃ i : nat, Vocab_getitem v (One t) = One i ∧
                Vocab_to_tokens v (inl (Z.of_nat i)) = Some (inl "<unk>")).
Proof.
  intros v.
  assert (∀ t, py_index (idx_to_token v) (Z.of_nat (default (unk v) (token_to_idx v !! t)))
               = Some (if decide (t ∈ idx_to_token v) then t else "<unk>")) as Hone.
  { intros t. rewrite py_index_nat.
    destruct (token_to_idx v !! t) as [i|] eqn:E; simpl.
    - apply (token_to_idx_lookup tokens min_freq u) in E. fold v in E.
      rewrite decide_True; [done|]. by eapply list_elem_of_lookup_2.
    - rewrite decide_False; [apply unk_token|].
      intros [i Hi]%list_elem_of_lookup.
      apply (token_to_idx_lookup tokens min_freq u) in Hi. fold v in Hi. congruence. }
  split.
  - exists ((λ t, default (unk v) (token_to_idx v !! t)) <$> l). split.
    + simpl. f_equal. induction l as [|t l IH]; csimpl; [done|]. by rewrite IH.
    + simpl. cut (mapM (py_index (idx_to_token v))
                    (Z.of_nat <$> ((λ t, default (unk v) (token_to_idx v !! t)) <$> l))
                  = Some ((λ t, if decide (t ∈ idx_to_token v) then t else "<unk>") <$> l)).
      { by intros ->. }
      apply mapM_Some_2. induction l as [|t l IH]; csimpl; constructor; [apply Hone|done].
  - intros t Ht. exists (default (unk v) (token_to_idx v !! t)). split; [done|].
    simpl. rewrite Hone. by rewrite decide_False.
Qed.

Lemma Vocab_decode_encode_witness :
  let v := Vocab_init [["b"; "a"; "b"]; ["c"; "a"; "b"]] 2 true in
  ∃ i : nat, Vocab_getitem v (One "c") = One i ∧
             Vocab_to_tokens v (inl (Z.of_nat i)) = Some (inl "<unk>").
Proof.
  apply (Vocab_decode_encode [["b"; "a"; "b"]; ["c"; "a"; "b"]] 2 true []).
  by apply (bool_decide_unpack _).
Defined.

(** X5.  [len(vocab)] is the number of special tokens plus the number of
    distinct tokens of the corpus that are not special and occur at least
    [min_freq] times. *)
Theorem Vocab_len_distinct (tokens : list (list string)) (min_freq : Z) (u : bool) :
  Vocab_len (Vocab_init tokens min_freq u) =
  length (special_tokens u) +
  size (filter (λ t, (t ∉ special_tokens u) ∧
                     (min_freq ≤ Z.of_nat (occurrences t (concat tokens)))%Z)
               (list_to_set (concat tokens) : gset string)).
Proof.
  unfold Vocab_len. rewrite idx_to_token_eq. unfold uniq_tokens.
  rewrite length_app. f_equal.
  set (l := (filter _ _).*1).
  assert (NoDup l) as Hnd.
  { eapply sublist_NoDup; [apply (token_freqs_NoDup tokens min_freq u)|].
    apply fmap_sublist, sublist_filter. }
  rewrite <- (size_list_to_set (C := gset string) l Hnd). f_equal.
  apply set_eq. intros t. rewrite elem_of_list_to_set, elem_of_filter, elem_of_list_to_set.
  unfold l. rewrite list_elem_of_fmap. split.
  - intros ([t' n] & -> & Hin). apply list_elem_of_filter in Hin as [[Hn Hsp] Hin].
    apply elem_of_token_freqs in Hin as [Hin ->]. done.
  - intros [[Hsp Hn] Hin]. exists (t, occurrences t (concat tokens)).
    split; [done|]. apply list_elem_of_filter. split; [by split|].
    by apply elem_of_token_freqs.
Qed.

(** X6.  Whatever the corpus contains, [self.unk] is the index of
    ['<unk>'], and under [use_special_tokens] the attributes [pad], [bos],
    [eos], [unk] are 0, 1, 2, 3, the indices of ['<pad>'], ['<bos>'],
    ['<eos>'], ['<unk>']. *)
Theorem Vocab_special_indices (tokens : list (list string)) (min_freq : Z) :
  (∀ u, let v := Vocab_init tokens min_freq u in
        token_to_idx v !! "<unk>" = Some (unk v) ∧
        idx_to_token v !! unk v = Some "<unk>") ∧
  (let v := Vocab_init tokens min_freq true in
   (pad v, bos v, eos v, unk v) = (Some 0, Some 1, Some 2, 3) ∧
   token_to_idx v !! "<pad>" = Some 0 ∧ token_to_idx v !! "<bos>" = Some 1 ∧
   token_to_idx v !! "<eos>" = Some 2 ∧ token_to_idx v !! "<unk>" = Some 3).
Proof.
  split.
  - intros u v. split; [apply token_to_idx_lookup|]; apply unk_token.
  - cbv zeta. split.
    + unfold Vocab_init. by destruct (fold_left index_step _ _).
    + rewrite !token_to_idx_lookup, idx_to_token_eq. by unfold uniq_tokens.
Qed.

Lemma counter_incr_sum (c : list (string * nat)) (tk : string) :
  sum_list ((counter_incr c tk).*2) = S (sum_list (c.*2)).
Proof.
  induction c as [|[k n] c IH]; csimpl; [done|].
  destruct (String.eqb k tk); csimpl; [done|]. rewrite IH. unfold id. lia.
Qed.

Lemma fold_counter_sum (l : list string) (c : list (string * nat)) :
  sum_list ((fold_left counter_incr l c).*2) = sum_list (c.*2) + length l.
Proof.
  revert c. induction l as [|tk l IH]; intros c; simpl; [lia|].
  rewrite IH, counter_incr_sum. lia.
Qed.

(** X7.  [token_freqs] lists every distinct token of the corpus once, with
    the number of its occurrences, the counts never increasing along the
    list and adding up to the number of tokens of the corpus. *)
Theorem token_freqs_counts (tokens : list (list string)) (min_freq : Z) (u : bool) :
  let v := Vocab_init tokens min_freq u in
  NoDup (token_freqs v).*1 ∧
  (∀ t n, (t, n) ∈ token_freqs v ↔
          t ∈ concat tokens ∧ n = occurrences t (concat tokens)) ∧
  StronglySorted (λ x y, y.2 ≤ x.2) (token_freqs v) ∧
  sum_list ((token_freqs v).*2) = length (concat tokens).
Proof.
  intros v. split_and!.
  - apply token_freqs_NoDup.
  - intros t n. apply elem_of_token_freqs.
  - pose proof (token_freqs_sorted tokens min_freq u) as Hs. fold v in Hs.
    induction Hs as [|x l Hs IH Hx]; constructor; [done|].
    eapply Forall_impl; [exact Hx|]. intros y [?|[? _]]; lia.
  - unfold v. rewrite token_freqs_perm. unfold count_corpus, Counter.
    by rewrite fold_counter_sum.
Qed.
End VocabFacts.

(** ** [load_corpus_time_machine] *)
Section LoadCorpusFacts.
Import Text Corpus.

Lemma elem_of_concat {A} (x : A) (ls : list (list A)) :
  x ∈ concat ls ↔ ∃ l, l ∈ ls ∧ x ∈ l.
Proof.
  induction ls as [|k ls IH]; simpl.
  - split; [by intros ?%elem_of_nil|by intros (l & ?%elem_of_nil & _)].
  - rewrite elem_of_app, IH. split.
    + intros [?|(l & ? & ?)]; [exists k; split; [left|done]|].
      exists l. split; [by right|done].
    + intros (l & [->|?]%elem_of_cons & ?); [by left|right; eauto].
Qed.

Lemma elem_of_chars (s x : string) :
  x ∈ chars s ↔ ∃ c, x = String c EmptyString ∧ c ∈ list_ascii_of_string s.
Proof.
  induction s as [|a s IH]; simpl.
  - split; [by intros ?%elem_of_nil|by intros (? & _ & ?%elem_of_nil)].
  - rewrite elem_of_cons, IH. split.
    + intros [->|(c & -> & Hc)]; [exists a|exists c]; split; try done; [left|by right].
    + intros (c & -> & [->|Hc]%elem_of_cons); [by left|right; eauto].
Qed.

Lemma char_in_alphabet (c : ascii) :
  is_lower c = true ∨ c = " "%char → String c EmptyString ∈ alphabet.
Proof.
  destruct c as [[] [] [] [] [] [] [] []]; intros [H|H]; try discriminate H;
    by apply (bool_decide_unpack _).
Qed.

(** The tokens of the character-level corpus are letters and the space. *)
Lemma char_tokens_alphabet (file : list string) (t : string) :
  t ∈ concat (chars <$> read_time_machine file) → t ∈ alphabet.
Proof.
  intros (l & Hl & Ht)%elem_of_concat.
  apply list_elem_of_fmap in Hl as (line & -> & Hline).
  unfold read_time_machine in Hline.
  apply list_elem_of_fmap in Hline as (raw & -> & _).
  apply elem_of_chars in Ht as (c & -> & Hc).
  destruct (normalised_clean raw) as [Hchars _].
  rewrite Forall_forall in Hchars. by apply char_in_alphabet, Hchars.
Qed.

Lemma bind_singleton_concat {A B} (f : A → B) (ls : list (list A)) :
  (l ← ls; x ← l; [f x]) = f <$> concat ls.
Proof.
  induction ls as [|l ls IH]; csimpl; [done|].
  rewrite IH, fmap_app. f_equal.
Qed.

(** X8.  [load_corpus_time_machine] returns the indices of the characters
    of the normalised text, cut to [max_tokens] when that is positive: no
    index is the unknown index 0, decoding the corpus gives the text back,
    and the vocabulary has at most 28 entries. *)
Theorem load_corpus_round_trip (file : list string) (max_tokens : Z) :
  let text := concat (chars <$> read_time_machine file) in
  let n := if (0 <? max_tokens)%Z then Z.to_nat max_tokens `min` length text
           else length text in
  ∃ corpus vocab,
    load_corpus_time_machine file max_tokens = Some (corpus, vocab) ∧
    length corpus = n ∧
    Forall (λ i, 0 < i < Vocab_len vocab) corpus ∧
    Vocab_to_tokens vocab (inr (Z.of_nat <$> corpus)) = Some (inr (take n text)) ∧
    Vocab_len vocab ≤ 28.
Proof.
  intros text n. unfold load_corpus_time_machine. simpl.
  set (tokens := List.map chars (read_time_machine file)).
  change (List.map chars (read_time_machine file)) with (chars <$> read_time_machine file)
    in tokens.
  set (vocab := Vocab_init tokens 0 false).
  rewrite bind_singleton_concat. fold text.
  (* every character has an index of its own behind '<unk>' *)
  assert (∀ t, t ∈ text →
            0 < index_of vocab t < Vocab_len vocab ∧
            idx_to_token vocab !! index_of vocab t = Some t) as Hidx.
  { intros t Ht.
    assert (kept 0 (special_tokens false) (t, occurrences t (concat tokens))) as Hk.
    { split; simpl; [lia|]. intros ->%list_elem_of_singleton.
      by apply char_tokens_alphabet, (bool_decide_pack _) in Ht. }
    assert ((t, occurrences t (concat tokens)) ∈ token_freqs vocab) as Hf.
    { by apply elem_of_token_freqs. }
    destruct (kept_token_index tokens 0 false _ _ Hf Hk) as (i & Hi & Hlen).
    fold vocab in Hi. unfold index_of. simpl. rewrite Hi. simpl in *.
    apply (token_to_idx_lookup tokens 0 false) in Hi. fold vocab in Hi.
    split; [|done]. split; [lia|]. by eapply lookup_lt_Some. }
  assert (length (index_of vocab <$> text) = length text) as Hlen
    by apply length_fmap.
  assert (Forall2 (λ x y, py_index (idx_to_token vocab) x = Some y)
            (Z.of_nat <$> (index_of vocab <$> text)) text) as Hall.
  { apply Forall2_fmap_l, Forall2_fmap_l, Forall_Forall2_diag, Forall_forall.
    intros t Ht. simpl. rewrite py_index_nat. by apply Hidx. }
  exists (if (0 <? max_tokens)%Z then take (Z.to_nat max_tokens) (index_of vocab <$> text)
          else index_of vocab <$> text), vocab.
  split; [done|]. split_and!.
  - unfold n. destruct (0 <? max_tokens)%Z; [|done]. by rewrite length_take, Hlen.
  - assert (Forall (λ i, 0 < i < Vocab_len vocab) (index_of vocab <$> text)) as HF.
    { apply Forall_fmap, Forall_forall. intros t Ht. by apply Hidx. }
    destruct (0 <? max_tokens)%Z; [by apply Forall_take|done].
  - simpl. unfold n. destruct (0 <? max_tokens)%Z.
    + rewrite fmap_take. erewrite (mapM_Some_2 _ _ (take (Z.to_nat max_tokens) text));
        [|by apply Forall2_take].
      simpl. do 2 f_equal. destruct (Nat.min_spec (Z.to_nat max_tokens) (length text))
        as [[? ->]|[? ->]]; [done|]. rewrite !take_ge by lia. done.
    + erewrite (mapM_Some_2 _ _ text); [|done]. simpl. by rewrite take_ge by lia.
  - unfold Vocab_len, vocab. rewrite idx_to_token_eq. unfold uniq_tokens.
    rewrite length_app. simpl length at 1.
    change 28 with (1 + length alphabet). apply Nat.add_le_mono_l.
    apply submseteq_length, NoDup_submseteq.
    + eapply sublist_NoDup; [apply (token_freqs_NoDup tokens 0 false)|].
      apply fmap_sublist, sublist_filter.
    + intros t ([t' k] & -> & Hin)%list_elem_of_fmap.
      apply list_elem_of_filter in Hin as [_ Hin].
      apply elem_of_token_freqs in Hin as [Hin _].
      by apply (char_tokens_alphabet file).
Qed.

Example load_corpus_small :
  fst <$> load_corpus_time_machine ["The Time Machine"; "by H. G. Wells"] 12
  = Some [7; 3; 2; 1; 7; 4; 6; 2; 1; 6; 8; 10].
Proof. by vm_compute. Qed.
End LoadCorpusFacts.

(** ** [CTRDataset]: errors *)
Section CTRErrors.
Import CTR.
Variable int_of_str : string → option Z.
Variable float32_of_str : string → option Q.
Variable set_order : list string → list string.

(** X9.  [dataset[idx]] raises for every index that is not one of
    [0, ..., len(dataset) - 1] (the records are kept in a [dict]: a negative
    index is a missing key), and for every index when [num_feat] is 0 (no
    record has the key ['x'] then). *)
Theorem CTRDataset_getitem_missing (lines : list string) fm df
    (min_threshold : Z) (num_feat : nat) (d : CTRDataset) (idx : Z) :
  CTRDataset_init int_of_str float32_of_str set_order lines fm df
    min_threshold num_feat = Some d →
  (idx < 0)%Z ∨ (Z.of_nat (CTRDataset_len d) ≤ idx)%Z ∨ num_feat = 0 →
  CTRDataset_getitem d idx = None.
Proof.
  intros H Hidx. apply init_data in H as (_ & Hc & Hall & Hd).
  unfold CTRDataset_getitem, CTRDataset_len in *.
  destruct (Z.ltb_spec idx 0) as [|Hpos]; [done|].
  rewrite Hd. destruct (filter _ lines !! Z.to_nat idx) as [line|] eqn:Hl; [|done].
  destruct Hidx as [?|[Hge| ->]]; [lia| |].
  - apply lookup_lt_Some in Hl. lia.
  - simpl. unfold record_of.
    destruct (Text.split_on _ _ !! 0); simpl; [|done].
    destruct (int_of_str _); simpl; [|done].
    destruct (np_setitem _ _ _); simpl; [|done].
    by destruct (float32_of_str _).
Qed.

(** X10.  [__init__] raises as soon as the file has a line with
    [NUM_FEATS + 1] values whose first value [int] cannot read, or reads as
    a number outside [-2 .. 1] (the index into the two-element array
    [label]), or [np.float32] cannot read: such a line is not skipped. *)
Theorem CTRDataset_init_bad_label (lines : list string) fm df
    (min_threshold : Z) (num_feat : nat) (line v0 : string) :
  line ∈ lines → well_formed num_feat line →
  Text.split_on tab (rstrip line_feed line) !! 0 = Some v0 →
  int_of_str v0 = None ∨
  (∃ k, int_of_str v0 = Some k ∧ ¬ (-2 ≤ k ≤ 1)%Z) ∨
  float32_of_str v0 = None →
  CTRDataset_init int_of_str float32_of_str set_order lines fm df
    min_threshold num_feat = None.
Proof.
  intros Hin Hwf Hv Hbad.
  destruct (CTRDataset_init _ _ _ _ _ _ _ _) as [d|] eqn:H; [|done]. exfalso.
  apply init_data in H as (_ & _ & Hall & _).
  rewrite Forall_forall in Hall. destruct (Hall line) as [inst Hi].
  { by apply list_elem_of_filter. }
  unfold record_of in Hi. rewrite Hv in Hi. simpl in Hi.
  destruct (int_of_str v0) as [k|] eqn:Hk; simpl in Hi.
  - destruct (np_setitem _ k 1) eqn:Hs; simpl in Hi; [|done].
    apply np_setitem_label_range in Hs.
    destruct (float32_of_str v0); simpl in Hi.
    + destruct Hbad as [?|[(k' & [= <-] & Hk')|?]]; [done|lia|done].
    + done.
  - done.
Qed.
End CTRErrors.

Section CTRErrorExamples.
Import CTR.

Lemma CTRDataset_getitem_missing_witness :
  ∃ d, CTRDataset_init read_bit read_label insertion_order sample_file None None 4 2
         = Some d ∧
       CTRDataset_getitem d 2 = None ∧ CTRDataset_getitem d (-1) = None.
Proof.
  destruct (CTRDataset_init read_bit read_label insertion_order sample_file None None 4 2)
    as [d|] eqn:E; [|by vm_compute in E].
  exists d. split; [done|]. split.
  - apply (CTRDataset_getitem_missing read_bit read_label insertion_order _ _ _ _ _ _ _ E).
    right. left. vm_compute in E. injection E as <-. by vm_compute.
  - apply (CTRDataset_getitem_missing read_bit read_label insertion_order _ _ _ _ _ _ _ E).
    left. lia.
Defined.

Lemma CTRDataset_init_bad_label_witness :
  CTRDataset_init read_bit read_label insertion_order
    [tsv_line ["1"; "a"]; tsv_line ["yes"; "b"]] None None 4 1 = None.
Proof.
  apply (CTRDataset_init_bad_label read_bit read_label insertion_order _ _ _ _ _
           (tsv_line ["yes"; "b"]) "yes").
  - by apply (bool_decide_unpack _).
  - by vm_compute.
  - by vm_compute.
  - left. by vm_compute.
Defined.
End CTRErrorExamples.

(** ** [CTRDataset]: the feature indices *)
Section OrderedDictFacts.
Import CTR.
Context {K V : Type} `{EqDecision K}.




End OrderedDictFacts.

Section CTRFeatures.
Import CTR CTRInvariants.
Variable int_of_str : string → option Z.
Variable float32_of_str : string → option Q.
Variable set_order : list string → list string.

(** A [set] is iterated over in some order of its elements. *)
Hypothesis set_order_perm : ∀ l, NoDup l → set_order l ≡ₚ l.





End CTRFeatures.

Section CTRDims.
Import CTR CTRInvariants.





End CTRDims.

Section CTRDefault.
Import CTR CTRInvariants.
Variable int_of_str : string → option Z.
Variable float32_of_str : string → option Q.
Variable set_order : list string → list string.






End CTRDefault.

Section CTRGetitem.
Import CTR CTRInvariants.
Variable int_of_str : string → option Z.
Variable float32_of_str : string → option Q.
Variable set_order : list string → list string.

(** A [set] is iterated over in some order of its elements. *)
Hypothesis set_order_perm : ∀ l, NoDup l → set_order l ≡ₚ l.




End CTRGetitem.

Section CTRGetitemExample.
Import CTR.


Example CTRDataset_getitem_sample :
  (CTRDataset_init read_bit read_label insertion_order sample_file None None 1 2
     ≫= λ d, CTRDataset_getitem d 1)
  = Some ([1; 4]%Z, [0%Q]).
Proof. by vm_compute. Qed.
End CTRGetitemExample.

(** ** [trans_conv] on arrays of every shape *)
Section ConvFacts.
Import Conv ConvSpec.









(** *** [trans_conv] does not depend on the order of its arguments *)









End ConvFacts.

(** ** [kernel2matrix]: the kernels it accepts *)
Section KernelMatrix.
Import Conv.

Lemma row_length (K : ndarray) (i : nat) (v : list Z) :
  well_shaped K → row K i = Some v → length v = shape1 K.
Proof.
  unfold well_shaped, row. intros Hw Hrow.
  destruct (decide _) as [Hi|]; [|done]. injection Hrow as <-.
  rewrite length_take, length_drop. nia.
Qed.

Lemma row_first_rows (K : ndarray) (n i : nat) :
  i < n ≤ shape0 K →
  row (mkArray n (shape1 K) (take (n * shape1 K) (data K))) i = row K i.
Proof.
  intros Hi. unfold row. simpl. rewrite !decide_True by lia. f_equal.
  rewrite !take_drop_commute, take_take. do 2 f_equal. nia.
Qed.

Lemma assign_slice_Some (k : list Z) (lo hi : nat) (v : list Z) :
  is_Some (assign_slice k lo hi v) ↔ length v = hi - lo ∨ length v = 1.
Proof.
  unfold assign_slice. destruct (decide _) as [|Hne].
  { split; eauto. }
  destruct v as [|x [|y v]]; simpl; split;
    first [by intros [? [=]] | intros [|]; by eauto | by eauto | idtac].
  all: intros [|]; simplify_eq.
Qed.

Lemma assign_slice_length (k : list Z) (lo hi : nat) (v k' : list Z) :
  lo ≤ hi ≤ length k → assign_slice k lo hi v = Some k' → length k' = length k.
Proof.
  unfold assign_slice. intros Hb Hk.
  destruct (decide _) as [Hv|].
  - injection Hk as <-. rewrite !length_app, length_take, length_drop. lia.
  - destruct v as [|x [|]]; simplify_eq.
    rewrite !length_app, length_take, length_replicate, length_drop. lia.
Qed.

Lemma assign_row_slice_Some (W : ndarray) (r lo hi : nat) (v : list Z) :
  r < shape0 W → length v = hi - lo → is_Some (assign_row_slice W r lo hi v).
Proof.
  intros Hr Hv. unfold assign_row_slice, assign_slice.
  rewrite decide_True by done. rewrite decide_True by lia. by eexists.
Qed.

Lemma assign_row_slice_shape (W : ndarray) (r lo hi : nat) (v : list Z) (W' : ndarray) :
  well_shaped W → lo ≤ hi ≤ shape1 W →
  assign_row_slice W r lo hi v = Some W' →
  shape0 W' = shape0 W ∧ shape1 W' = shape1 W ∧ well_shaped W'.
Proof.
  unfold assign_row_slice, well_shaped. intros Hw Hb HW'.
  destruct (decide _) as [Hr|]; [|done].
  destruct (assign_slice _ _ _ _) as [d|] eqn:Hd; [|done].
  injection HW' as <-. simpl. split_and!; [done..|].
  apply assign_slice_length in Hd; [lia|]. nia.
Qed.

(** X14.  [kernel2matrix(K)] returns exactly for the kernels with at least
    two rows and with one or two columns (a single column is broadcast over
    the two places of its row), and raises for all others; the result is a
    4 x 9 matrix; and rows of [K] after the second are ignored. *)
Theorem kernel2matrix_domain (K : ndarray) :
  well_shaped K →
  (is_Some (kernel2matrix K) ↔ 2 ≤ shape0 K ∧ (shape1 K = 1 ∨ shape1 K = 2)) ∧
  (∀ W, kernel2matrix K = Some W → shape0 W = 4 ∧ shape1 W = 9 ∧ well_shaped W) ∧
  (2 ≤ shape0 K →
   kernel2matrix K =
   kernel2matrix (mkArray 2 (shape1 K) (take (2 * shape1 K) (data K)))).
Proof.
  intros HK. split_and!.
  - unfold kernel2matrix. split.
    + intros [W HW].
      destruct (row K 0) as [K0|] eqn:H0; [|done].
      destruct (row K 1) as [K1|] eqn:H1; [|done].
      cbn [mbind option_bind] in HW.
      destruct (assign_slice (zeros1 5) 0 2 K0) as [k|] eqn:Hk; [|done].
      split.
      * unfold row in H1. destruct (decide _); [lia|done].
      * apply row_length in H0; [|done].
        destruct (proj1 (assign_slice_Some (zeros1 5) 0 2 K0)) as [|]; [by eexists|lia..].
    + intros [Hrows Hcols].
      destruct (row K 0) as [K0|] eqn:H0;
        [|unfold row in H0; rewrite decide_True in H0 by lia; done].
      destruct (row K 1) as [K1|] eqn:H1;
        [|unfold row in H1; rewrite decide_True in H1 by lia; done].
      apply row_length in H0; [|done]. apply row_length in H1; [|done].
      cbn [mbind option_bind].
      destruct (proj2 (assign_slice_Some (zeros1 5) 0 2 K0)) as [k Hk]; [lia|].
      rewrite Hk. cbn [mbind option_bind].
      assert (length k = 5) as Hlk
        by (apply assign_slice_length in Hk; [done|simpl; lia]).
      destruct (proj2 (assign_slice_Some k 3 5 K1)) as [k' Hk']; [lia|].
      rewrite Hk'. cbn [mbind option_bind].
      assert (length k' = 5) as Hlk'
        by (apply assign_slice_length in Hk'; [lia|lia]).
      destruct (assign_row_slice_Some (zeros 4 9) 0 0 5 k') as [W0 HW0];
        [simpl; lia|lia|].
      rewrite HW0. cbn [mbind option_bind].
      apply assign_row_slice_shape in HW0 as (Hs0 & Hs1 & Hw0);
        [|reflexivity|simpl; lia].
      destruct (assign_row_slice_Some W0 1 1 6 k') as [W1 HW1];
        [rewrite Hs0; simpl; lia|lia|].
      rewrite HW1. cbn [mbind option_bind].
      apply assign_row_slice_shape in HW1 as (Ht0 & Ht1 & Hw1);
        [|done|rewrite Hs1; simpl; lia].
      destruct (assign_row_slice_Some W1 2 3 8 k') as [W2 HW2];
        [rewrite Ht0, Hs0; simpl; lia|lia|].
      rewrite HW2. cbn [mbind option_bind].
      apply assign_row_slice_shape in HW2 as (Hu0 & Hu1 & Hw2);
        [|done|rewrite Ht1, Hs1; simpl; lia].
      destruct (assign_row_slice_Some W2 3 4 9 k') as [W3 HW3];
        [rewrite Hu0, Ht0, Hs0; simpl; lia|lia|].
      rewrite HW3. by eexists.
  - intros W HW. unfold kernel2matrix in HW.
    destruct (row K 0) as [K0|]; [|done].
    destruct (row K 1) as [K1|]; [|done].
    cbn [mbind option_bind] in HW.
    destruct (assign_slice (zeros1 5) 0 2 K0) as [k|]; [|done].
    cbn [mbind option_bind] in HW.
    destruct (assign_slice k 3 5 K1) as [k'|]; [|done].
    cbn [mbind option_bind] in HW.
    destruct (assign_row_slice (zeros 4 9) 0 0 5 k') as [W0|] eqn:HW0; [|done].
    cbn [mbind option_bind] in HW.
    apply assign_row_slice_shape in HW0 as (Hs0 & Hs1 & Hw0);
      [|reflexivity|simpl; lia].
    destruct (assign_row_slice W0 1 1 6 k') as [W1|] eqn:HW1; [|done].
    cbn [mbind option_bind] in HW.
    apply assign_row_slice_shape in HW1 as (Ht0 & Ht1 & Hw1);
      [|done|rewrite Hs1; simpl; lia].
    destruct (assign_row_slice W1 2 3 8 k') as [W2|] eqn:HW2; [|done].
    cbn [mbind option_bind] in HW.
    apply assign_row_slice_shape in HW2 as (Hu0 & Hu1 & Hw2);
      [|done|rewrite Ht1, Hs1; simpl; lia].
    destruct (assign_row_slice W2 3 4 9 k') as [W3|] eqn:HW3; [|done].
    cbn [mbind option_bind] in HW. injection HW as <-.
    apply assign_row_slice_shape in HW3 as (Hv0 & Hv1 & Hw3);
      [|done|rewrite Hu1, Ht1, Hs1; simpl; lia].
    split_and!; [| |done].
    + by rewrite Hv0, Hu0, Ht0, Hs0.
    + by rewrite Hv1, Hu1, Ht1, Hs1.
  - intros Hrows. unfold kernel2matrix.
    by rewrite !(row_first_rows K 2) by lia.
Qed.

Lemma kernel2matrix_domain_witness :
  is_Some (kernel2matrix (mkArray 3 1 [7; 8; 9]%Z)) ∧
  kernel2matrix (mkArray 3 1 [7; 8; 9]%Z) = kernel2matrix (mkArray 2 1 [7; 8]%Z) ∧
  ¬ is_Some (kernel2matrix (mkArray 3 3 [1; 2; 3; 4; 5; 6; 7; 8; 9]%Z)).
Proof.
  destruct (kernel2matrix_domain (mkArray 3 1 [7; 8; 9]%Z)) as (Hdom & _ & Hrows);
    [reflexivity|].
  destruct (kernel2matrix_domain (mkArray 3 3 [1; 2; 3; 4; 5; 6; 7; 8; 9]%Z))
    as (Hdom' & _ & _); [reflexivity|].
  split_and!.
  - apply Hdom. simpl. lia.
  - apply Hrows. simpl. lia.
  - intros H. apply Hdom' in H. simpl in H. lia.
Defined.
End KernelMatrix.

(** ** [masked_softmax], batch by batch *)
Section MaskedSoftmax.
Import Attention AttentionSpec.

Lemma fmap_zip_with_compose {A B C D} (g : C → D) (f : A → B → C)
    (l : list A) (k : list B) :
  g <$> zip_with f l k = zip_with (λ x y, g (f x y)) l k.
Proof. revert k. induction l as [|x l IH]; intros [|y k]; csimpl; by rewrite ?IH. Qed.

Lemma chunks_app {A} (q n : nat) (m rows : list A) :
  length m = q → chunks q (S n) (m ++ rows) = m :: chunks q n rows.
Proof. intros Hm. simpl. by rewrite take_app_length', drop_app_length'. Qed.

(** Masking the rows of all batches at once and regrouping them, for one
    valid length per row. *)
Lemma masked_chunks (X : tensor) (L : list (list nat)) (s1 : nat) :
  Forall (λ m, length m = s1) X →
  Forall2 (λ (m : matrix) lens, length m = length lens) X L →
  chunks s1 (length X)
    (softmax_row <$> zip_with (λ x len, imap (λ j a, if decide (j < len) then a
                                               else (-1000000)%R) x)
                       (concat X) (concat L)) =
  zip_with (λ m lens, zip_with (λ x len, softmax_row (mask_row len x)) m lens) X L.
Proof.
  intros HX HL. induction HL as [|m lens X L Hm HL IH]; [done|].
  apply Forall_cons in HX as [Hs HX]. cbn [concat length zip_with].
  rewrite zip_with_app by done. rewrite fmap_app, chunks_app.
  - rewrite IH by done. f_equal. by rewrite fmap_zip_with_compose.
  - rewrite length_fmap, length_zip_with. lia.
Qed.

Lemma bind_concat_fmap {A B} (f : A → list B) (l : list A) :
  l ≫= f = concat (f <$> l).
Proof. induction l as [|x l IH]; csimpl; by rewrite ?IH. Qed.

Lemma concat_length_Forall2 {A B} (X : list (list A)) (L : list (list B)) :
  Forall2 (λ m lens, length m = length lens) X L →
  length (concat X) = length (concat L).
Proof. induction 1 as [|m lens X L Hm _ IH]; simpl; [done|]. rewrite !length_app. lia. Qed.

(** X15.  On a tensor [X] of three axes, [masked_softmax] with a
    [valid_length] of one axis treats batch [b] with [valid_length[b]]: each
    of its rows is masked from that position on and passed through the
    softmax; with a [valid_length] of two axes it treats row [i] of batch
    [b] with [valid_length[b, i]].  The two reshapes leave every row in its
    batch. *)
Theorem masked_softmax_per_batch (X : tensor) :
  Forall (λ m : matrix, length m = length (hd [] X)) X →
  (∀ l, length l = length X →
     masked_softmax X (Some (Lengths1 l)) =
     Some (zip_with (λ (m : matrix) len, (λ x, softmax_row (mask_row len x)) <$> m) X l)) ∧
  (∀ l, Forall2 (λ (m : matrix) lens, length m = length lens) X l →
     masked_softmax X (Some (Lengths2 l)) =
     Some (zip_with (λ (m : matrix) lens,
                       zip_with (λ x len, softmax_row (mask_row len x)) m lens) X l)).
Proof.
  intros HX.
  assert (∀ L, Forall2 (λ (m : matrix) lens, length m = length lens) X L →
            sequence_mask (concat X) (concat L) (-1000000)%R ≫=
              (λ X', Some (chunks (length (hd [] X)) (length X) (softmax_row <$> X'))) =
            Some (zip_with (λ (m : matrix) lens,
                    zip_with (λ x len, softmax_row (mask_row len x)) m lens) X L))
    as Hgen.
  { intros L HL. unfold sequence_mask.
    rewrite decide_True by (by apply concat_length_Forall2).
    simpl. f_equal. by apply masked_chunks. }
  split.
  - intros l Hl. unfold masked_softmax, shape.
    rewrite bind_concat_fmap.
    rewrite Hgen.
    + f_equal. rewrite zip_with_fmap_r.
      clear Hgen. revert HX. generalize (length (hd [] X)). intros s1 HX.
      revert l Hl. induction HX as [|m X' Hm HX IH]; intros [|len l] Hl; try done.
      simpl. f_equal; [|apply IH; simpl in Hl; lia].
      rewrite zip_with_replicate_r by lia. done.
    + apply Forall2_fmap_r, Forall2_same_length_lookup_2; [done|].
      intros b m len Hm _. simpl. rewrite length_replicate.
      rewrite Forall_lookup in HX. by apply (HX b).
  - intros l Hl. unfold masked_softmax, shape. by apply Hgen.
Qed.

Lemma masked_softmax_per_batch_witness :
  masked_softmax [[[1; 2; 3]; [4; 5; 6]]; [[7; 8; 9]; [0; 1; 2]]]%R
    (Some (Lengths1 [2; 3])) =
  Some [[softmax_row [1; 2; -1000000]; softmax_row [4; 5; -1000000]];
        [softmax_row [7; 8; 9]; softmax_row [0; 1; 2]]]%R.
Proof.
  destruct (masked_softmax_per_batch
              [[[1; 2; 3]; [4; 5; 6]]; [[7; 8; 9]; [0; 1; 2]]]%R) as [H1 _].
  - by repeat constructor.
  - by rewrite H1.
Defined.
End MaskedSoftmax.

(** ** Attention over keys that are all equal *)
Section UniformAttention.
Import Attention AttentionSpec.
Local Open Scope R_scope.









End UniformAttention.

(** ** [reorg_train_valid] and [reorg_test] *)
Section ReorgFacts.
Import Reorg.
Variable int_of_str : string → option Z.












End ReorgFacts.

Section ReorgExamples.
Import Reorg.

End ReorgExamples.

(** ** [CTRDataset]: which values share an index *)
Section CTRTally.
Import CTR CTRInvariants.
Variable int_of_str : string → option Z.
Variable float32_of_str : string → option Q.








End CTRTally.

Section CTRThreshold.
Import CTR CTRInvariants.
Variable int_of_str : string → option Z.
Variable float32_of_str : string → option Q.
Variable set_order : list string → list string.

(** A [set] is iterated over in some order of its elements. *)
Hypothesis set_order_perm : ∀ l, NoDup l → set_order l ≡ₚ l.








End CTRThreshold.

Section CTRThresholdExample.
Import CTR CTRInvariants.


Example CTRDataset_rare_values_share :
  (CTRDataset_init read_bit read_label insertion_order sample_file None None 2 2
     ≫= λ d, CTRDataset_getitem d 0) = Some ([0; 1]%Z, [1%Q]) ∧
  (CTRDataset_init read_bit read_label insertion_order sample_file None None 2 2
     ≫= λ d, CTRDataset_getitem d 1) = Some ([0; 1]%Z, [0%Q]).
Proof. by vm_compute. Qed.
End CTRThresholdExample.

(** ** [CTRDataset]: a second data set on the mapper of the first *)
Section CTRShared.
Import CTR.
Variable int_of_str : string → option Z.
Variable float32_of_str : string → option Q.
Variable set_order : list string → list string.

(** The mapper that [__init__] leaves in the object, whether passed or
    computed, is the one it has sized [field_dims] by. *)
Lemma init_mapper (lines : list string) fm df (min_threshold : Z) (n : nat)
    (d : CTRDataset) :
  CTRDataset_init int_of_str float32_of_str set_order lines fm df min_threshold n
    = Some d →
  ∃ fm', feat_mapper d = Some fm' ∧
         fold_left dims_step fm' (Some (replicate n 0%Z)) = Some (field_dims d) ∧
         offsets d = 0%Z :: removelast (cumsum (field_dims d)).
Proof.
  unfold CTRDataset_init. intros H.
  destruct (fold_left (read_line _ _ n) lines _) as [ld|]; simpl in H; [|done].
  destruct fm as [fm|], df as [df|]; simpl in H; try done;
    (destruct (fold_left dims_step _ _) as [dims|] eqn:Hdims; simpl in H; [|done]);
    injection H as <-; simpl; by eauto.
Qed.

(** X21.  A data set built on the [feat_mapper] and the [defaults] of
    another one (as the test set is built on those of the training set) has
    the same [field_dims] and [offsets], and gives a record the feature
    indices that the other data set gives to a record with the same
    values. *)
Theorem CTRDataset_shared_mapper (lines lines' : list string) fm df
    (min_threshold min_threshold' : Z) (n : nat) (d d' : CTRDataset) :
  CTRDataset_init int_of_str float32_of_str set_order lines fm df min_threshold n
    = Some d →
  CTRDataset_init int_of_str float32_of_str set_order lines'
    (feat_mapper d) (defaults d) min_threshold' n = Some d' →
  field_dims d' = field_dims d ∧ offsets d' = offsets d ∧
  ∀ (idx idx' : nat) inst inst',
    data d !! idx = Some inst → data d' !! idx' = Some inst' →
    inst_x inst = inst_x inst' →
    fst <$> CTRDataset_getitem d' (Z.of_nat idx') =
    fst <$> CTRDataset_getitem d (Z.of_nat idx).
Proof.
  intros Hd Hd'. destruct (init_mapper _ _ _ _ _ _ Hd) as (fm' & Hfm & Hdims & Hoff).
  unfold CTRDataset_init in Hd'. rewrite Hfm in Hd'.
  destruct (fold_left (read_line _ _ n) lines' _) as [ld'|]; simpl in Hd'; [|done].
  rewrite Hdims in Hd'. simpl in Hd'. injection Hd' as <-. simpl.
  split_and!; [done..|].
  intros idx idx' inst inst' Hi Hi' Hx. unfold CTRDataset_getitem. simpl.
  destruct (Z.ltb_spec (Z.of_nat idx') 0) as [|_]; [lia|].
  destruct (Z.ltb_spec (Z.of_nat idx) 0) as [|_]; [lia|].
  rewrite !Nat2Z.id, Hi, Hi'. simpl. rewrite Hx, Hfm, <- Hoff.
  destruct (inst_x inst') as [xs|]; simpl; [|done].
  destruct (mapM _ _) as [feat|]; simpl; [|done].
  by destruct (np_add feat (offsets d)).
Qed.
End CTRShared.

Section CTRSharedExample.
Import CTR.

Lemma CTRDataset_shared_mapper_witness :
  ∃ d d',
    CTRDataset_init read_bit read_label insertion_order sample_file None None 1 2
      = Some d ∧
    CTRDataset_init read_bit read_label insertion_order
      [tsv_line ["0"; "c"; "z"]; tsv_line ["1"; "a"; "b"]]
      (feat_mapper d) (defaults d) 4 2 = Some d' ∧
    offsets d' = offsets d ∧
    fst <$> CTRDataset_getitem d' 1 = fst <$> CTRDataset_getitem d 0.
Proof.
  destruct (CTRDataset_init read_bit read_label insertion_order sample_file None None 1 2)
    as [d|] eqn:E; [|by vm_compute in E].
  destruct (CTRDataset_init read_bit read_label insertion_order
              [tsv_line ["0"; "c"; "z"]; tsv_line ["1"; "a"; "b"]]
              (feat_mapper d) (defaults d) 4 2) as [d'|] eqn:E'; last first.
  { exfalso. vm_compute in E. injection E as <-. by vm_compute in E'. }
  exists d, d'. split_and!; [done..| |].
  - by destruct (CTRDataset_shared_mapper read_bit read_label insertion_order
                   _ _ _ _ _ _ _ _ _ E E') as (_ & ? & _).
  - destruct (CTRDataset_shared_mapper read_bit read_label insertion_order
                _ _ _ _ _ _ _ _ _ E E') as (_ & _ & H).
    destruct (data d !! 0) as [inst|] eqn:Hi; last first.
    { exfalso. vm_compute in E. injection E as <-. by vm_compute in Hi. }
    destruct (data d' !! 1) as [inst'|] eqn:Hi'; last first.
    { exfalso. vm_compute in E. injection E as <-. vm_compute in E'.
      injection E' as <-. by vm_compute in Hi'. }
    apply (H 0 1 inst inst' Hi Hi').
    vm_compute in E. injection E as <-. vm_compute in E'. injection E' as <-.
    vm_compute in Hi, Hi'. by injection Hi as <-; injection Hi' as <-.
Defined.
End CTRSharedExample.
